(** * Angulario: the angle between two random functions

    A shallow embedding of the engine of the game ([src/gameLogic.ts]:
    [simpsonsRule], [generateRandomFunction], [getNewFunctions],
    [calculateAngle]) and of the round loop, the scaling pass and the score
    of [src/App.tsx] ([startNewRound], [submitGuess]).

    JavaScript's [number] is IEEE-754 binary64.  The code is embedded once,
    over an interface of the arithmetic it uses, and read at three
    instances:
    - [float], Rocq's primitive binary64 floats: [+ - * /], [Math.sqrt] and
      the comparisons are bit-exact, NaN and the infinities included, so a
      run of the code on a concrete input is a computation; the functions
      ECMAScript leaves to the platform ([Math.acos], [Math.pow], [sin],
      [exp], ...) are parameters;
    - [R] with a rounding after every operation (module [Rounded]), for
      what holds of all finite inputs when results are rounded;
    - [R], exact real arithmetic, for what the formulas mean when nothing is
      rounded, overflows or is NaN.

    Expressions are the trees mathjs parses; the strings the code builds and
    parses again are built directly as trees.  [Math.random()] is a tape of
    draws. *)

From Stdlib Require Import ZArith List Bool Floats Uint63 Reals Lra Lia.
Import ListNotations.

Set Implicit Arguments.

(** ** The arithmetic of the program *)

(** The named functions of the generator's grammar. *)
Inductive FunctionName : Set :=
  | Fsin | Fcos | Ftanh | Fsinh | Fatan | Fasin | Fexp | Fcbrt.

(** What IEEE-754 and ECMAScript fix exactly. *)
Class Number (N : Type) : Type := {
  ofZ : Z -> N;                       (* integer literals and loop counters *)
  nadd : N -> N -> N;
  nsub : N -> N -> N;
  nmul : N -> N -> N;
  ndiv : N -> N -> N;
  nopp : N -> N;
  nlt : N -> N -> bool;               (* x < y *)
  neq : N -> N -> bool;               (* x === y *)
  Math_abs : N -> N;
  Math_sqrt : N -> N;
  Math_max : N -> N -> N;
  Math_min : N -> N -> N;
  Math_floor : N -> N;
  Math_ceil : N -> N;
  isFinite : N -> bool
}.

(** What ECMAScript leaves to the platform's math library. *)
Class MathLib (N : Type) : Type := {
  Math_pow : N -> N -> N;
  Math_acos : N -> N;
  Math_PI : N;
  applyFn : FunctionName -> N -> N    (* mathjs sin, cos, ... on a number *)
}.

Declare Scope num_scope.
Delimit Scope num_scope with num.
Infix "+" := nadd : num_scope.
Infix "-" := nsub : num_scope.
Infix "*" := nmul : num_scope.
Infix "/" := ndiv : num_scope.
Notation "- x" := (nopp x) : num_scope.
Infix "<?" := nlt : num_scope.
Infix "===" := neq (at level 70) : num_scope.

(** ** Expression trees (mathjs nodes) *)

Inductive BinOp : Set := Add | Multiply | Divide | Pow.

(** The nodes [math.parse] builds for the strings of this program: the one
    symbol [x], numeric constants, binary operators, unary minus, a function
    call and the parentheses of the source text, which mathjs keeps as nodes. *)
Inductive MathNode (N : Type) : Type :=
  | SymbolX : MathNode N
  | ConstantNode : N -> MathNode N
  | OperatorNode : BinOp -> MathNode N -> MathNode N -> MathNode N
  | UnaryMinus : MathNode N -> MathNode N
  | FunctionNode : FunctionName -> MathNode N -> MathNode N
  | ParenthesisNode : MathNode N -> MathNode N.

Arguments SymbolX {N}.

Record AngleResult (N : Type) : Type := mkAngleResult {
  angle : option N;                   (* [None] is JavaScript's [null] *)
  f1_final : MathNode N;
  f2_final : MathNode N
}.

Section Engine.

Context {N : Type} {num : Number N} {lib : MathLib N}.
Local Open Scope num_scope.

Definition applyOp (op : BinOp) (u v : N) : N :=
  match op with
  | Add => u + v
  | Multiply => u * v
  | Divide => u / v
  | Pow => Math_pow u v
  end.

(** [node.evaluate({ x })]. *)
Fixpoint evaluate (e : MathNode N) (x : N) : N :=
  match e with
  | SymbolX => x
  | ConstantNode c => c
  | OperatorNode op l r => applyOp op (evaluate l x) (evaluate r x)
  | UnaryMinus u => - evaluate u x
  | FunctionNode fn u => applyFn fn (evaluate u x)
  | ParenthesisNode u => evaluate u x
  end.

(** Trees for the strings the program interpolates and parses again;
    [toString] followed by [math.parse] gives the tree back. *)
Definition squared (f : MathNode N) : MathNode N :=          (* `(${f})^2` *)
  OperatorNode Pow (ParenthesisNode f) (ConstantNode (ofZ 2)).
Definition dividedBy (f : MathNode N) (c : N) : MathNode N := (* `(${f}) / ${c}` *)
  OperatorNode Divide (ParenthesisNode f) (ConstantNode c).
Definition timesConst (f : MathNode N) (k : N) : MathNode N := (* `(${f}) * ${k}` *)
  OperatorNode Multiply (ParenthesisNode f) (ConstantNode k).
Definition product (f g : MathNode N) : MathNode N :=        (* `(${f}) * (${g})` *)
  OperatorNode Multiply (ParenthesisNode f) (ParenthesisNode g).
Definition negated (f : MathNode N) : MathNode N :=          (* `-(${f})` *)
  UnaryMinus (ParenthesisNode f).

(** ** Simpson's rule *)

(** [for (let i = start; i < bound; i += 2) sum += w * func(a + i * h)].
    The counter grows by two each turn, so [fuel] turns are enough as soon
    as [bound - start <= 2 * fuel]. *)
Fixpoint simpsonLoop (fuel : nat) (func : N -> N) (a h w : N)
    (i bound : Z) (sum : N) : N :=
  match fuel with
  | O => sum
  | S fuel' =>
      if (i <? bound)%Z
      then simpsonLoop fuel' func a h w (i + 2) bound
             (sum + w * func (a + ofZ i * h))
      else sum
  end.

Definition simpsonsRule (func : N -> N) (a b : N) (n : Z) : N :=
  let n := if (Z.rem n 2 =? 0)%Z then n else (n + 1)%Z in
  let h := (b - a) / ofZ n in
  let sum := func a + func b in
  let sum := simpsonLoop (Z.to_nat n) func a h (ofZ 4) 1 n sum in
  let sum := simpsonLoop (Z.to_nat n) func a h (ofZ 2) 2 (n - 1) sum in
  (h / ofZ 3) * sum.

(** The default [n = 200] of the source. *)
Definition integrate (func : N -> N) (a b : N) : N := simpsonsRule func a b 200.

(** ** The angle *)

Definition norm (f : MathNode N) (interval : N * N) : N :=
  Math_sqrt (integrate (evaluate (squared f)) (fst interval) (snd interval)).

Definition innerProductOf (f1 f2 : MathNode N) (interval : N * N) : N :=
  integrate (evaluate (product f1 f2)) (fst interval) (snd interval).

(** The second half of [calculateAngle], from the inner product on. *)
Definition angleOf (f1 f2 : MathNode N) (interval : N * N)
    (ensureAcute : bool) : AngleResult N :=
  let innerProduct := innerProductOf f1 f2 interval in
  let flip := ensureAcute && (innerProduct <? ofZ 0) in
  let f2 := if flip then negated f2 else f2 in
  let innerProduct := if flip then - innerProduct else innerProduct in
  let normF1 := norm f1 interval in
  let normF2 := norm f2 interval in
  if (normF1 === ofZ 0) || (normF2 === ofZ 0)
  then mkAngleResult None f1 f2
  else
    let cosTheta := innerProduct / (normF1 * normF2) in
    let cosTheta := Math_max (- ofZ 1) (Math_min (ofZ 1) cosTheta) in
    let angleRad := Math_acos cosTheta in
    let angleDeg := angleRad * (ofZ 180 / Math_PI) in
    mkAngleResult (Some angleDeg) f1 f2.

(** Evaluating a tree of [MathNode] at a number raises no exception, so the
    [catch] branch of the source (which also answers [null]) is not reached
    and is left out. *)
Definition calculateAngle (f1_orig f2_orig : MathNode N) (isUnitary : bool)
    (interval : N * N) (ensureAcute : bool) : AngleResult N :=
  if isUnitary then
    let normF1 := norm f1_orig interval in
    let normF2 := norm f2_orig interval in
    if (normF1 === ofZ 0) || (normF2 === ofZ 0)
    then mkAngleResult None f1_orig f2_orig
    else angleOf (dividedBy f1_orig normF1) (dividedBy f2_orig normF2)
           interval ensureAcute
  else angleOf f1_orig f2_orig interval ensureAcute.

End Engine.


(** ** Randomness *)

(** The program draws from [Math.random()].  The draws are read from a tape,
    in the order the code makes them.  [Array.prototype.sort] with the
    comparator [() => 0.5 - Math.random()] leaves the array in an order the
    engine decides (the comparator is inconsistent), so the tape records that
    order as one entry, the positions of the thirteen base functions. *)
Inductive Draw (N : Type) : Type :=
  | Random : N -> Draw N
  | Sorted : list nat -> Draw N.

Arguments Random {N} _.
Arguments Sorted {N} _.

Definition Tape (N : Type) : Type := list (Draw N).

(** Computations that read the tape; [None] when the tape has run out or its
    next entry is of the other kind. *)
Definition Gen (N A : Type) : Type := Tape N -> option (A * Tape N).

Definition ret {N A : Type} (a : A) : Gen N A := fun t => Some (a, t).

Definition bind {N A B : Type} (m : Gen N A) (k : A -> Gen N B) : Gen N B :=
  fun t => match m t with
           | Some (a, t') => k a t'
           | None => None
           end.

Notation "x <- m ;; k" := (bind m (fun x => k))
  (at level 61, m at next level, right associativity).

Definition Math_random {N : Type} : Gen N N :=
  fun t => match t with
           | Random u :: t' => Some (u, t')
           | _ => None
           end.

Definition sortRandomly {N A : Type} (l : list A) : Gen N (list A) :=
  fun t => match t with
           | Sorted order :: t' =>
               Some (flat_map (fun i => match nth_error l i with
                                        | Some a => [a]
                                        | None => []
                                        end) order, t')
           | _ => None
           end.

Definition fail {N A : Type} : Gen N A := fun _ => None.

(** ** The generator *)

Section Generator.

Context {N : Type} {num : Number N}.
Local Open Scope num_scope.

(** [array[k]] for a number [k]: the element at the position [k] is equal to. *)
Fixpoint arrayGet {A : Type} (l : list A) (i : Z) (k : N) : option A :=
  match l with
  | [] => None
  | y :: l' => if k === ofZ i then Some y else arrayGet l' (i + 1) k
  end.

Definition pick {A : Type} (l : list A) (k : N) : Gen N A :=
  match arrayGet l 0 k with
  | Some a => ret a
  | None => fail
  end.

Definition powX (k : Z) : MathNode N :=
  OperatorNode Pow SymbolX (ConstantNode (ofZ k)).

Definition baseFunctions (intervalLimit : N) : list (MathNode N) :=
  [ SymbolX; powX 2; powX 3; powX 4;
    FunctionNode Fsin SymbolX; FunctionNode Fcos SymbolX;
    FunctionNode Fexp SymbolX;
    FunctionNode Ftanh SymbolX; FunctionNode Fsinh SymbolX;
    FunctionNode Fatan SymbolX;
    OperatorNode Divide (ConstantNode (ofZ 1))
      (ParenthesisNode (OperatorNode Add (powX 2) (ConstantNode (ofZ 1))));
    FunctionNode Fcbrt SymbolX;
    FunctionNode Fasin (OperatorNode Divide SymbolX (ConstantNode intervalLimit)) ].

(** [0.5, 1.5, 2, 3]; the two fractions are exact in binary64. *)
Definition scalars : list N :=
  [ ofZ 1 / ofZ 2; ofZ 3 / ofZ 2; ofZ 2; ofZ 3 ].

Definition createModifiedString (func : MathNode N) : Gen N (MathNode N) :=
  r <- Math_random ;;
  modifiedFunc <-
    (if r <? ofZ 33 / ofZ 100
     then r' <- Math_random ;;
          scalar <- pick scalars (Math_floor (r' * ofZ 4)) ;;
          ret (OperatorNode Multiply (ConstantNode scalar) (ParenthesisNode func))
     else ret func) ;;
  r'' <- Math_random ;;
  if r'' <? ofZ 1 / ofZ 2
  then ret (negated modifiedFunc)
  else ret modifiedFunc.

(** [node.transform(n => isSymbolNode(n) && n.name === 'x' ? g : n)]. *)
Fixpoint substitute (e g : MathNode N) : MathNode N :=
  match e with
  | SymbolX => g
  | ConstantNode c => ConstantNode c
  | OperatorNode op l r => OperatorNode op (substitute l g) (substitute r g)
  | UnaryMinus u => UnaryMinus (substitute u g)
  | FunctionNode fn u => FunctionNode fn (substitute u g)
  | ParenthesisNode u => ParenthesisNode (substitute u g)
  end.

Definition chosen {A : Type} (l : list A) (i : nat) : Gen N A :=
  match nth_error l i with
  | Some a => ret a
  | None => fail
  end.

Definition generateRandomFunction (intervalLimit : N) : Gen N (MathNode N) :=
  r <- Math_random ;;
  let numToCombine := Math_floor (r * ofZ 3) + ofZ 1 in
  shuffled <- sortRandomly (baseFunctions intervalLimit) ;;
  count <- pick [1%nat; 2%nat; 3%nat] (numToCombine - ofZ 1) ;;
  let chosenFuncs := firstn count shuffled in
  if numToCombine === ofZ 1 then
    c0 <- chosen chosenFuncs 0 ;;
    createModifiedString c0
  else if numToCombine === ofZ 2 then
    c0 <- chosen chosenFuncs 0 ;;
    m1 <- createModifiedString c0 ;;
    c1 <- chosen chosenFuncs 1 ;;
    m2 <- createModifiedString c1 ;;
    let f1Node := ParenthesisNode m1 in
    let f2Node := ParenthesisNode m2 in
    r1 <- Math_random ;;
    op <- pick [Some Add; Some Multiply; None] (Math_floor (r1 * ofZ 3)) ;;
    match op with
    | Some o => ret (OperatorNode o f1Node f2Node)
    | None =>
        r2 <- Math_random ;;
        if r2 <? ofZ 1 / ofZ 2
        then ret (substitute f1Node f2Node)
        else ret (substitute f2Node f1Node)
    end
  else
    c0 <- chosen chosenFuncs 0 ;;
    m1 <- createModifiedString c0 ;;
    c1 <- chosen chosenFuncs 1 ;;
    m2 <- createModifiedString c1 ;;
    c2 <- chosen chosenFuncs 2 ;;
    m3 <- createModifiedString c2 ;;
    r1 <- Math_random ;;
    op1 <- pick [Add; Multiply] (Math_floor (r1 * ofZ 2)) ;;
    let intermediate :=
      ParenthesisNode (OperatorNode op1 (ParenthesisNode m1) (ParenthesisNode m2)) in
    r2 <- Math_random ;;
    op2 <- pick [Add; Multiply] (Math_floor (r2 * ofZ 2)) ;;
    ret (OperatorNode op2 (ParenthesisNode intermediate) (ParenthesisNode m3)).

Definition BinOp_eqb (o1 o2 : BinOp) : bool :=
  match o1, o2 with
  | Add, Add | Multiply, Multiply | Divide, Divide | Pow, Pow => true
  | _, _ => false
  end.

Definition FunctionName_eqb (g1 g2 : FunctionName) : bool :=
  match g1, g2 with
  | Fsin, Fsin | Fcos, Fcos | Ftanh, Ftanh | Fsinh, Fsinh
  | Fatan, Fatan | Fasin, Fasin | Fexp, Fexp | Fcbrt, Fcbrt => true
  | _, _ => false
  end.

(** [a.equals(b)]: mathjs compares the two trees node by node, and the
    values of constants with [===]. *)
Fixpoint equals (e1 e2 : MathNode N) : bool :=
  match e1, e2 with
  | SymbolX, SymbolX => true
  | ConstantNode c1, ConstantNode c2 => c1 === c2
  | OperatorNode o1 l1 r1, OperatorNode o2 l2 r2 =>
      BinOp_eqb o1 o2 && equals l1 l2 && equals r1 r2
  | UnaryMinus u1, UnaryMinus u2 => equals u1 u2
  | FunctionNode g1 u1, FunctionNode g2 u2 =>
      FunctionName_eqb g1 g2 && equals u1 u2
  | ParenthesisNode u1, ParenthesisNode u2 => equals u1 u2
  | _, _ => false
  end.

(** [while (cond(v)) v = body()], with the number of turns taken.  [None]
    when the tape runs out, or after [fuel] turns with [cond] still true. *)
Fixpoint whileLoop {A : Type} (fuel : nat) (cond : A -> bool)
    (body : Gen N A) (v : A) (turns : nat) : Gen N (A * nat) :=
  if cond v then
    match fuel with
    | O => fail
    | S fuel' => v' <- body ;; whileLoop fuel' cond body v' (S turns)
    end
  else ret (v, turns).

(** The loop condition of [getNewFunctions]. *)
Definition identicalOrNegative (f1 f2 : MathNode N) : bool :=
  equals f1 f2 || equals f1 (negated f2).

Definition intervalLimitOf (interval : N * N) : N :=
  Math_max (Math_abs (fst interval)) (Math_abs (snd interval)).

(** [getNewFunctions], with the number of times [f2] was drawn again. *)
Definition getNewFunctionsTurns (fuel : nat) (interval : N * N)
    : Gen N (MathNode N * MathNode N * nat) :=
  let intervalLimit := intervalLimitOf interval in
  f1 <- generateRandomFunction intervalLimit ;;
  f2 <- generateRandomFunction intervalLimit ;;
  r <- whileLoop fuel (identicalOrNegative f1)
         (generateRandomFunction intervalLimit) f2 0 ;;
  ret (f1, fst r, snd r).

Definition getNewFunctions (fuel : nat) (interval : N * N)
    : Gen N (MathNode N * MathNode N) :=
  r <- getNewFunctionsTurns fuel interval ;;
  ret (fst r).

End Generator.

(** ** The round: balancing, retrying, scoring *)

Section Round.

Context {N : Type} {num : Number N} {lib : MathLib N}.
Local Open Scope num_scope.

(** The hundred abscissas of the scaling pass. *)
Definition x_vals_for_scaling (interval : N * N) : list N :=
  map (fun i : nat =>
         let t := ofZ (Z.of_nat i) / ofZ 99 in
         fst interval + t * (snd interval - fst interval))
      (seq 0 100).

(** [Math.max(...ys.filter(y => isFinite(y)).map(Math.abs))]; [None] stands
    for the [-Infinity] JavaScript answers on an empty list. *)
Definition maxAbsFinite (ys : list N) : option N :=
  match map Math_abs (filter isFinite ys) with
  | [] => None
  | y :: l => Some (fold_left Math_max l y)
  end.

Definition sampledPeak (f : MathNode N) (interval : N * N) : option N :=
  maxAbsFinite (map (evaluate f) (x_vals_for_scaling interval)).

(** The scaling logic of [startNewRound]: [(f1_round, f2_round)]. *)
Definition scaleFunctions (f1_orig f2_orig : MathNode N) (interval : N * N)
    : MathNode N * MathNode N :=
  match sampledPeak f1_orig interval, sampledPeak f2_orig interval with
  | Some max_abs_y1, Some max_abs_y2 =>
      if (ofZ 0 <? max_abs_y1) && (ofZ 0 <? max_abs_y2) then
        let ratio := if max_abs_y2 <? max_abs_y1
                     then max_abs_y1 / max_abs_y2
                     else max_abs_y2 / max_abs_y1 in
        if ofZ 5 <? ratio then
          let k := Math_ceil (ratio / ofZ 5) in
          if max_abs_y2 <? max_abs_y1
          then (f1_orig, timesConst f2_orig k)
          else (timesConst f1_orig k, f2_orig)
        else (f1_orig, f2_orig)
      else (f1_orig, f2_orig)
  | _, _ => (f1_orig, f2_orig)
  end.

(** The interval of a round: [do { a = ...; b = ... } while (a === b)], then
    the two bounds in order; [[-1, 1]] in easy mode. *)
Fixpoint drawBounds (fuel : nat) : Gen N (N * N) :=
  match fuel with
  | O => fail
  | S fuel' =>
      r <- Math_random ;;
      let a := Math_floor (r * ofZ 11) - ofZ 5 in
      r' <- Math_random ;;
      let b := Math_floor (r' * ofZ 11) - ofZ 5 in
      if a === b then drawBounds fuel' else ret (a, b)
  end.

Definition chooseInterval (fuel : nat) (isEasyInterval : bool) : Gen N (N * N) :=
  if isEasyInterval then ret (ofZ (-1), ofZ 1)
  else ab <- drawBounds fuel ;;
       ret (Math_min (fst ab) (snd ab), Math_max (fst ab) (snd ab)).

(** [angleResult === null || angleResult.angle === null]. *)
Definition noAngle (angleResult : option (AngleResult N)) : bool :=
  match angleResult with
  | None => true
  | Some r => match angle r with None => true | Some _ => false end
  end.

(** One turn of the loop of [startNewRound]. *)
Definition attemptRound (fuel : nat) (interval : N * N)
    (isUnitaryMode acuteAnglesOnly : bool) : Gen N (option (AngleResult N)) :=
  funcs <- getNewFunctions fuel interval ;;
  let scaled := scaleFunctions (fst funcs) (snd funcs) interval in
  ret (Some (calculateAngle (fst scaled) (snd scaled) isUnitaryMode interval
               acuteAnglesOnly)).

(** The loop of [startNewRound], with the number of turns it took. *)
Definition startNewRound (fuel : nat) (interval : N * N)
    (isUnitaryMode acuteAnglesOnly : bool)
    : Gen N (option (AngleResult N) * nat) :=
  whileLoop fuel noAngle
    (attemptRound fuel interval isUnitaryMode acuteAnglesOnly) None 0.

(** [submitGuess]: the difference and the score of a guess. *)
Definition submitGuess (actual_angle guess : N) : N * N :=
  let diff := Math_abs (actual_angle - guess) in
  let score :=
    ofZ 100 * Math_pow (Math_max (ofZ 0) (ofZ 1 - diff / ofZ 180)) (ofZ 3) in
  (diff, score).

End Round.

(** ** binary64 *)

Module Binary64.

Definition float_ofZ (z : Z) : float :=
  match z with
  | Z0 => 0%float
  | Zpos _ => of_uint63 (Uint63.of_Z z)
  | Zneg p => (- of_uint63 (Uint63.of_Z (Zpos p)))%float
  end.

(** [Math.max] and [Math.min]: NaN if an argument is NaN, and [-0 < +0]. *)
Definition float_max (x y : float) : float :=
  if is_nan x || is_nan y then nan
  else if PrimFloat.ltb x y then y
  else if PrimFloat.ltb y x then x
  else if get_sign x then y else x.

Definition float_min (x y : float) : float :=
  if is_nan x || is_nan y then nan
  else if PrimFloat.ltb x y then x
  else if PrimFloat.ltb y x then y
  else if get_sign x then x else y.

(** [Math.floor]: below [2^52] in magnitude, adding and removing [2^52]
    rounds to an integer, which is then corrected downwards. *)
Definition float_floor (x : float) : float :=
  if is_nan x || is_infinity x then x
  else if PrimFloat.leb 0x1p52 (PrimFloat.abs x) then x
  else if PrimFloat.eqb x 0 then x
  else
    let r := if PrimFloat.ltb x 0
             then ((x - 0x1p52) + 0x1p52)%float
             else ((x + 0x1p52) - 0x1p52)%float in
    if PrimFloat.ltb x r then (r - 1)%float else r.

Definition float_ceil (x : float) : float := (- float_floor (- x))%float.

Definition float_isFinite (x : float) : bool :=
  negb (is_nan x || is_infinity x).

#[export] Instance float_Number : Number float := {|
  ofZ := float_ofZ;
  nadd := PrimFloat.add;
  nsub := PrimFloat.sub;
  nmul := PrimFloat.mul;
  ndiv := PrimFloat.div;
  nopp := PrimFloat.opp;
  nlt := PrimFloat.ltb;
  neq := PrimFloat.eqb;
  Math_abs := PrimFloat.abs;
  Math_sqrt := PrimFloat.sqrt;
  Math_max := float_max;
  Math_min := float_min;
  Math_floor := float_floor;
  Math_ceil := float_ceil;
  isFinite := float_isFinite
|}.

(** The functions of the platform's math library. *)
Class Libm : Type := mkLibm {
  libm_acos : float -> float;
  libm_pow : float -> float -> float;
  libm_fn : FunctionName -> float -> float
}.

(** [Math.pow(x, 2)] is taken to be the correctly rounded square. *)
Definition float_pow {L : Libm} (x y : float) : float :=
  if PrimFloat.eqb y 2 then (x * x)%float else libm_pow x y.

#[export] Instance float_MathLib {L : Libm} : MathLib float := {|
  Math_pow := float_pow;
  Math_acos := libm_acos;
  Math_PI := 0x1.921fb54442d18p+1%float;
  applyFn := libm_fn
|}.

(** A math library that knows the values ECMAScript fixes for [Math.acos]
    and [Math.pow] and answers NaN elsewhere; it shows that what is assumed
    of a math library below can be met. *)
Definition specLibm : Libm := {|
  libm_acos := fun c =>
    if PrimFloat.eqb c 1 then 0%float
    else if PrimFloat.eqb c (-1) then 0x1.921fb54442d18p+1%float
    else nan;
  libm_pow := fun x y =>
    if PrimFloat.eqb y 0 then 1%float
    else if PrimFloat.eqb y 1 then x
    else nan;
  libm_fn := fun _ _ => nan
|}.

End Binary64.

(** ** Exact arithmetic *)

Module Exact.

Local Open Scope R_scope.

Definition R_ltb (x y : R) : bool := if Rlt_dec x y then true else false.
Definition R_eqb (x y : R) : bool := if Req_dec_T x y then true else false.

Definition R_floor (x : R) : R := IZR (Int_part x).
Definition R_ceil (x : R) : R := - IZR (Int_part (- x)).

#[export] Instance R_Number : Number R := {|
  ofZ := IZR;
  nadd := Rplus;
  nsub := Rminus;
  nmul := Rmult;
  ndiv := Rdiv;
  nopp := Ropp;
  nlt := R_ltb;
  neq := R_eqb;
  Math_abs := Rabs;
  Math_sqrt := sqrt;
  Math_max := Rmax;
  Math_min := Rmin;
  Math_floor := R_floor;
  Math_ceil := R_ceil;
  isFinite := fun _ => true
|}.

(** [x^y] for the exponents the program writes (2, 3, 4), and the real
    power elsewhere. *)
Definition R_pow (x y : R) : R :=
  if Req_dec_T y 2 then x * x
  else if Req_dec_T y 3 then x * x * x
  else if Req_dec_T y 4 then x * x * x * x
  else Rpower x y.

Definition R_cbrt (x : R) : R :=
  if Req_dec_T x 0 then 0
  else if Rlt_dec 0 x then Rpower x (/ 3)
  else - Rpower (- x) (/ 3).

Definition R_fn (fn : FunctionName) (x : R) : R :=
  match fn with
  | Fsin => sin x
  | Fcos => cos x
  | Ftanh => tanh x
  | Fsinh => sinh x
  | Fatan => atan x
  | Fasin => asin x
  | Fexp => exp x
  | Fcbrt => R_cbrt x
  end.

#[export] Instance R_MathLib : MathLib R := {|
  Math_pow := R_pow;
  Math_acos := acos;
  Math_PI := PI;
  applyFn := R_fn
|}.

End Exact.

(** * Properties *)

(** ** The early exit of the unitary mode *)

Section EarlyExit.

Context {N : Type} {num : Number N} {lib : MathLib N}.
Local Open Scope num_scope.

Lemma early_null_returns_inputs (f1 f2 : MathNode N) (interval : N * N)
    (ensureAcute : bool) :
  (norm f1 interval === ofZ 0) || (norm f2 interval === ofZ 0) = true ->
  calculateAngle f1 f2 true interval ensureAcute = mkAngleResult None f1 f2.
Proof. intros Hzero. unfold calculateAngle. rewrite Hzero. reflexivity. Qed.

End EarlyExit.

(** ** Simpson's rule, turn by turn *)

Section SimpsonTurns.

Context {N : Type} {num : Number N}.
Local Open Scope num_scope.

(** [k] turns of the loop, whatever the bound. *)
Fixpoint simpsonTurns (k : nat) (func : N -> N) (a h w : N) (i : Z) (sum : N) : N :=
  match k with
  | O => sum
  | S k' => simpsonTurns k' func a h w (i + 2) (sum + w * func (a + ofZ i * h))
  end.

(** With fuel for them, the loop takes exactly the [k] turns that bring the
    counter from [i] to the bound. *)
Lemma simpsonLoop_turns (func : N -> N) (a h w : N) (bound : Z) :
  forall (k fuel : nat) (i : Z) (sum : N),
    (k <= fuel)%nat ->
    (i + 2 * Z.of_nat k - 2 < bound <= i + 2 * Z.of_nat k)%Z ->
    (k = 0%nat -> bound <= i)%Z ->
    simpsonLoop fuel func a h w i bound sum = simpsonTurns k func a h w i sum.
Proof.
  induction k as [ | k IH ]; intros fuel i sum Hfuel Hbound Hexit.
  - destruct fuel as [ | fuel ]; [ reflexivity | ].
    cbn [simpsonLoop simpsonTurns].
    specialize (Hexit eq_refl).
    destruct (Z.ltb_spec i bound) as [ Hlt | _ ]; [ lia | reflexivity ].
  - destruct fuel as [ | fuel ]; [ lia | ].
    cbn [simpsonLoop simpsonTurns].
    destruct (Z.ltb_spec i bound) as [ _ | Hge ]; [ | lia ].
    apply IH; lia.
Qed.

(** For an even [n = 2 m] with [m >= 1] the rule is the two sums of [m] and
    [m - 1] terms. *)
Lemma simpsonsRule_even (func : N -> N) (a b : N) (m : nat) :
  (1 <= m)%nat ->
  let n := (2 * Z.of_nat m)%Z in
  let h := (b - a) / ofZ n in
  simpsonsRule func a b n
  = (h / ofZ 3)
    * simpsonTurns (m - 1) func a h (ofZ 2) 2
        (simpsonTurns m func a h (ofZ 4) 1 (func a + func b)).
Proof.
  intros Hm n h. unfold simpsonsRule.
  replace (Z.rem n 2 =? 0)%Z with true
    by (symmetry; apply Z.eqb_eq; subst n; rewrite Z.mul_comm; apply Z.rem_mul; lia).
  fold n. fold h.
  rewrite (@simpsonLoop_turns func a h (ofZ 4) n m) by (subst n; lia).
  rewrite (@simpsonLoop_turns func a h (ofZ 2) (n - 1) (m - 1)) by (subst n; lia).
  reflexivity.
Qed.

(** An odd [n] is replaced by [n + 1]. *)
Lemma simpsonsRule_odd (func : N -> N) (a b : N) (n : Z) :
  Z.rem n 2 <> 0%Z ->
  Z.rem (n + 1) 2 = 0%Z ->
  simpsonsRule func a b n = simpsonsRule func a b (n + 1).
Proof.
  intros Hodd Heven. unfold simpsonsRule.
  destruct (Z.eqb_spec (Z.rem n 2) 0) as [ H0 | _ ]; [ contradiction | ].
  rewrite Heven. reflexivity.
Qed.

End SimpsonTurns.

(** ** Simpson's rule in exact arithmetic *)

Module ExactSimpson.

Import Exact.
Local Open Scope R_scope.

(** The rule only looks at the values of the integrand. *)
Lemma simpsonTurns_ext (f g : R -> R) (a h w : R) :
  (forall x, f x = g x) ->
  forall (k : nat) (i : Z) (sum : R),
    simpsonTurns k f a h w i sum = simpsonTurns k g a h w i sum.
Proof.
  intros Hfg. induction k as [ | k IH ]; intros i sum; cbn [simpsonTurns].
  - reflexivity.
  - rewrite Hfg. apply IH.
Qed.

(** The sum of a polynomial of degree two over [k] turns from [i]. *)
Lemma simpsonTurns_quadratic (c2 c1 c0 a h w : R) :
  forall (k : nat) (i : Z) (sum : R),
    simpsonTurns k (fun x => c2 * x * x + c1 * x + c0) a h w i sum
    = sum + w * (c2 * (INR k * a * a
                       + 2 * a * h * (INR k * IZR i + INR k * (INR k - 1))
                       + h * h * (INR k * IZR i * IZR i
                                  + 2 * IZR i * INR k * (INR k - 1)
                                  + 2 * INR k * (INR k - 1) * (2 * INR k - 1) / 3))
                 + c1 * (INR k * a + h * (INR k * IZR i + INR k * (INR k - 1)))
                 + c0 * INR k).
Proof.
  induction k as [ | k IH ]; intros i sum.
  - cbn [simpsonTurns INR]. field.
  - cbn [simpsonTurns]. rewrite IH, S_INR, plus_IZR.
    cbn [nadd nmul ofZ R_Number]. field.
Qed.

(** Simpson's rule integrates a polynomial of degree two exactly, for every
    even number of subintervals. *)
Lemma simpsonsRule_quadratic (f : R -> R) (c2 c1 c0 a b : R) (m : nat) :
  (forall x, f x = c2 * x * x + c1 * x + c0) ->
  (1 <= m)%nat ->
  simpsonsRule f a b (2 * Z.of_nat m)
  = c2 * (b * b * b - a * a * a) / 3 + c1 * (b * b - a * a) / 2 + c0 * (b - a).
Proof.
  intros Hf Hm.
  rewrite simpsonsRule_even by exact Hm. cbv zeta.
  rewrite (simpsonTurns_ext _ _ _ _ _ Hf m).
  rewrite (simpsonTurns_ext _ _ _ _ _ Hf (m - 1)).
  rewrite !simpsonTurns_quadratic, !Hf.
  rewrite minus_INR by exact Hm.
  cbn [nadd nmul nsub ndiv ofZ R_Number].
  rewrite mult_IZR, <- INR_IZR_INZ. cbn [INR].
  assert (Hpos : INR m <> 0) by (apply not_0_INR; lia).
  field. exact Hpos.
Qed.

Lemma integrate_quadratic (f : R -> R) (c2 c1 c0 a b : R) :
  (forall x, f x = c2 * x * x + c1 * x + c0) ->
  integrate f a b
  = c2 * (b * b * b - a * a * a) / 3 + c1 * (b * b - a * a) / 2 + c0 * (b - a).
Proof.
  intros Hf. unfold integrate.
  apply (@simpsonsRule_quadratic f c2 c1 c0 a b 100 Hf). lia.
Qed.

(** The [n] used after the parity test is twice a positive number. *)
Lemma rounded_up_even (n : Z) :
  (0 < n)%Z ->
  exists m : nat,
    (1 <= m)%nat
    /\ (if (Z.rem n 2 =? 0)%Z then n else (n + 1)%Z) = (2 * Z.of_nat m)%Z.
Proof.
  intros Hn. rewrite Z.rem_mod_nonneg by lia.
  destruct (Z.eqb_spec (n mod 2) 0) as [ H0 | H1 ].
  - exists (Z.to_nat (n / 2)). pose proof (Z.div_mod n 2). lia.
  - exists (Z.to_nat ((n + 1) / 2)).
    pose proof (Z.div_mod n 2). pose proof (Z.div_mod (n + 1) 2).
    pose proof (Z.mod_pos_bound n 2). pose proof (Z.mod_pos_bound (n + 1) 2).
    lia.
Qed.

Lemma simpsonsRule_rounds_up (f : R -> R) (a b : R) (n : Z) :
  (0 < n)%Z ->
  exists m : nat,
    (1 <= m)%nat /\ simpsonsRule f a b n = simpsonsRule f a b (2 * Z.of_nat m).
Proof.
  intros Hn. destruct (rounded_up_even Hn) as (m & Hm & Heq).
  exists m. split; [ exact Hm | ].
  unfold simpsonsRule at 1. cbv zeta. rewrite Heq.
  unfold simpsonsRule.
  replace (Z.rem (2 * Z.of_nat m) 2 =? 0)%Z with true
    by (symmetry; apply Z.eqb_eq; rewrite Z.mul_comm; apply Z.rem_mul; lia).
  reflexivity.
Qed.

(** A constant integrates to its value times the length of the interval. *)
Lemma simpsonsRule_constant (c a b : R) (n : Z) :
  (0 < n)%Z -> simpsonsRule (fun _ => c) a b n = c * (b - a).
Proof.
  intros Hn. destruct (simpsonsRule_rounds_up (fun _ => c) a b Hn) as (m & Hm & ->).
  rewrite (@simpsonsRule_quadratic (fun _ => c) 0 0 c a b m) by (intros; lra || lia).
  field.
Qed.

(** The weights of the rule add up to [3 n]: 2 for the two ends, 4 for each
    of the [n / 2] odd abscissas, 2 for each of the [n / 2 - 1] even ones. *)
Lemma weights_sum (a h : R) (m : nat) :
  (1 <= m)%nat ->
  simpsonTurns (m - 1) (fun _ => 1) a h 2 2
    (simpsonTurns m (fun _ => 1) a h 4 1 (1 + 1))
  = 2 + 4 * INR m + 2 * (INR m - 1)
  /\ 2 + 4 * INR m + 2 * (INR m - 1) = 3 * IZR (2 * Z.of_nat m).
Proof.
  intros Hm. split.
  - assert (Hext : forall x : R, 1 = 0 * x * x + 0 * x + 1) by (intros; ring).
    rewrite (simpsonTurns_ext (fun _ => 1) _ a h 4 Hext m).
    rewrite (simpsonTurns_ext (fun _ => 1) _ a h 2 Hext (m - 1)).
    rewrite !simpsonTurns_quadratic, minus_INR by exact Hm. cbn [INR]. ring.
  - rewrite mult_IZR, <- INR_IZR_INZ. ring.
Qed.

Lemma odd_rounds_up (f : R -> R) (a b : R) (n : Z) :
  Z.odd n = true ->
  simpsonsRule f a b n = simpsonsRule f a b (n + 1) /\ Z.even (n + 1) = true.
Proof.
  intros Hodd.
  assert (Heven : Z.even (n + 1) = true).
  { rewrite Z.even_add, <- Z.negb_odd, Hodd. reflexivity. }
  split; [ | exact Heven ].
  apply simpsonsRule_odd.
  - intros H0. apply Z.rem_divide in H0; [ | lia ].
    destruct H0 as [ q Hq ]. subst n.
    rewrite Z.odd_mul in Hodd. cbn in Hodd.
    rewrite andb_false_r in Hodd. discriminate.
  - apply Z.rem_divide; [ lia | ].
    apply Z.even_spec in Heven. destruct Heven as [ q Hq ].
    exists q. lia.
Qed.

End ExactSimpson.

(** ** Simpson's rule on constants *)

Module SimpsonConstants.

Import Exact ExactSimpson Binary64.

(** The intervals of a round: integer bounds between [-5] and [5], the
    easy [[-1, 1]] among them (what [chooseInterval] yields, see
    [chooseInterval_roundInterval] below). *)
Definition roundInterval (ia ib : Z) : Prop :=
  (-5 <= ia)%Z /\ (ia < ib)%Z /\ (ib <= 5)%Z.

Lemma roundInterval_cases (ia ib : Z) :
  roundInterval ia ib ->
  In (ia, ib)
     (flat_map (fun a => map (fun b => (a, b)) [-4; -3; -2; -1; 0; 1; 2; 3; 4; 5]%Z)
        [-5; -4; -3; -2; -1; 0; 1; 2; 3; 4]%Z).
Proof.
  unfold roundInterval. intros H.
  assert (Ha : In ia [-5; -4; -3; -2; -1; 0; 1; 2; 3; 4]%Z) by (cbn; lia).
  assert (Hb : In ib [-4; -3; -2; -1; 0; 1; 2; 3; 4; 5]%Z) by (cbn; lia).
  apply in_flat_map. exists ia. split; [ exact Ha | ].
  apply in_map. exact Hb.
Qed.

(** In binary64, with the 200 subintervals of the source, both integrals
    come out exactly on every interval of a round. *)
Definition constantsExact (iv : Z * Z) : bool :=
  let a := float_ofZ (fst iv) in
  let b := float_ofZ (snd iv) in
  (Z.leb (snd iv) (fst iv))
  || (PrimFloat.eqb (integrate (fun _ => 0%float) a b) 0
      && PrimFloat.eqb (integrate (fun _ => 1%float) a b) (b - a)).

Lemma constants_binary64 (ia ib : Z) :
  roundInterval ia ib -> constantsExact (ia, ib) = true.
Proof.
  intros H. apply roundInterval_cases in H. revert H.
  generalize (ia, ib). apply forallb_forall. vm_compute. reflexivity.
Qed.

(** C4: on every interval [a < b] Simpson's rule gives [0] for the zero
    function and [b - a] for the constant [1] (so within [1e-9] of it), an
    odd [n] is replaced by the even [n + 1], and the weights of the rule add up
    to [3 n]; in exact arithmetic for every real interval and every [n > 0],
    and in binary64, as computed with the 200 subintervals of the source, for
    every interval of a round. *)
Theorem simpson_constants (a b : R) (n ia ib : Z) :
  (a < b)%R -> (0 < n)%Z -> roundInterval ia ib ->
  simpsonsRule (fun _ => 0%R) a b n = 0%R
  /\ (Rabs (simpsonsRule (fun _ => 1%R) a b n - (b - a)) <= / 1000000000)%R
  /\ (Z.odd n = true ->
      forall f : R -> R,
        simpsonsRule f a b n = simpsonsRule f a b (n + 1)
        /\ Z.even (n + 1) = true)
  /\ (forall (h : R) (m : nat),
        (1 <= m)%nat ->
        simpsonTurns (m - 1) (fun _ => 1%R) a h 2%R 2
          (simpsonTurns m (fun _ => 1%R) a h 4%R 1 (1 + 1)%R)
        = (3 * IZR (2 * Z.of_nat m))%R)
  /\ PrimFloat.eqb (integrate (fun _ => 0%float) (float_ofZ ia) (float_ofZ ib)) 0
     = true
  /\ PrimFloat.eqb (integrate (fun _ => 1%float) (float_ofZ ia) (float_ofZ ib))
       (float_ofZ ib - float_ofZ ia) = true.
Proof.
  intros Hab Hn Hiv.
  rewrite !simpsonsRule_constant by exact Hn.
  split; [ ring | ].
  split.
  { replace (1 * (b - a) - (b - a))%R with 0%R by ring.
    rewrite Rabs_R0. lra. }
  split.
  { intros Hodd f. apply odd_rounds_up. exact Hodd. }
  split.
  { intros h m Hm. destruct (weights_sum a h Hm) as [ -> -> ]. reflexivity. }
  pose proof (constants_binary64 Hiv) as Hc. unfold constantsExact in Hc.
  cbn [fst snd] in Hc.
  destruct (Z.leb_spec ib ia) as [ Hle | _ ]; [ unfold roundInterval in Hiv; lia | ].
  cbn [orb] in Hc. apply andb_prop in Hc. exact Hc.
Qed.

Lemma simpson_constants_witness :
  simpsonsRule (fun _ => 0%R) (-1)%R 1%R 199%Z = 0%R
  /\ (Rabs (simpsonsRule (fun _ => 1%R) (-1)%R 1%R 199%Z - (1 - -1))
      <= / 1000000000)%R
  /\ (Z.odd 199 = true ->
      forall f : R -> R,
        simpsonsRule f (-1)%R 1%R 199%Z = simpsonsRule f (-1)%R 1%R (199 + 1)%Z
        /\ Z.even (199 + 1) = true)
  /\ (forall (h : R) (m : nat),
        (1 <= m)%nat ->
        simpsonTurns (m - 1) (fun _ => 1%R) (-1)%R h 2%R 2
          (simpsonTurns m (fun _ => 1%R) (-1)%R h 4%R 1 (1 + 1)%R)
        = (3 * IZR (2 * Z.of_nat m))%R)
  /\ PrimFloat.eqb (integrate (fun _ => 0%float) (float_ofZ (-1)) (float_ofZ 1)) 0
     = true
  /\ PrimFloat.eqb (integrate (fun _ => 1%float) (float_ofZ (-1)) (float_ofZ 1))
       (float_ofZ 1 - float_ofZ (-1)) = true.
Proof.
  apply (@simpson_constants (-1)%R 1%R 199%Z (-1)%Z 1%Z).
  - lra.
  - lia.
  - unfold roundInterval. lia.
Defined.

End SimpsonConstants.

(** ** The interval of a round *)

Module RoundInterval.

Import Exact SimpsonConstants.
Local Open Scope R_scope.

(** [Math.random()] answers a number of [[0, 1)]. *)
Definition unitDraws (t : Tape R) : Prop :=
  Forall (fun d => match d with
                   | Random u => 0 <= u < 1
                   | Sorted _ => True
                   end) t.

Lemma drawn_bound (u : R) :
  0 <= u < 1 ->
  exists k : Z, R_floor (u * 11) - 5 = IZR k /\ (-5 <= k <= 5)%Z.
Proof.
  intros Hu. unfold R_floor.
  pose proof (base_Int_part (u * 11)) as [ Hle Hgt ].
  exists (Int_part (u * 11) - 5)%Z. split; [ rewrite minus_IZR; reflexivity | ].
  assert (H0 : (-1 < Int_part (u * 11))%Z) by (apply lt_IZR; lra).
  assert (H1 : (Int_part (u * 11) < 11)%Z) by (apply lt_IZR; lra).
  lia.
Qed.

Lemma drawBounds_distinct (fuel : nat) :
  forall (t t' : Tape R) (a b : R),
    unitDraws t ->
    drawBounds fuel t = Some ((a, b), t') ->
    exists ia ib : Z,
      a = IZR ia /\ b = IZR ib /\ ia <> ib
      /\ (-5 <= ia <= 5)%Z /\ (-5 <= ib <= 5)%Z.
Proof.
  induction fuel as [ | fuel IH ]; intros t t' a b Ht; cbn [drawBounds];
    [ discriminate | ].
  unfold bind, Math_random.
  destruct t as [ | [ u | ] t ]; try discriminate.
  destruct t as [ | [ u' | ] t ]; try discriminate.
  inversion Ht as [ | d0 l0 Hu Ht0 ]; subst.
  inversion Ht0 as [ | d1 l1 Hu' Ht1 ]; subst.
  cbn [nsub nmul ofZ neq Math_floor R_Number].
  destruct (drawn_bound Hu) as (ia & Hia & Hra).
  destruct (drawn_bound Hu') as (ib & Hib & Hrb).
  rewrite Hia, Hib. unfold R_eqb.
  destruct (Req_dec_T (IZR ia) (IZR ib)) as [ Heq | Hne ].
  - apply IH. exact Ht1.
  - intros [= <- <- <-]. exists ia, ib. repeat split; try lia; try reflexivity.
    intros ->. apply Hne. reflexivity.
Qed.

(** The interval chosen for a round has integer bounds [-5 <= a < b <= 5]. *)
Lemma chooseInterval_roundInterval (fuel : nat) (isEasyInterval : bool)
    (t t' : Tape R) (a b : R) :
  unitDraws t ->
  chooseInterval fuel isEasyInterval t = Some ((a, b), t') ->
  exists ia ib : Z, a = IZR ia /\ b = IZR ib /\ roundInterval ia ib.
Proof.
  intros Ht. unfold chooseInterval. destruct isEasyInterval.
  - intros [= <- <- _]. exists (-1)%Z, 1%Z.
    unfold roundInterval. repeat split; lia.
  - unfold bind.
    destruct (drawBounds fuel t) as [ [ [ a0 b0 ] t0 ] | ] eqn:Hdraw;
      [ | discriminate ].
    destruct (drawBounds_distinct fuel Ht Hdraw)
      as (ia & ib & -> & -> & Hne & Hra & Hrb).
    cbn [fst snd Math_min Math_max R_Number]. intros [= <- <- _].
    exists (Z.min ia ib), (Z.max ia ib).
    unfold roundInterval. repeat split; try lia.
    + unfold Rmin. destruct (Rle_dec (IZR ia) (IZR ib)) as [ H | H ].
      * apply le_IZR in H. rewrite Z.min_l by lia. reflexivity.
      * rewrite Z.min_r; [ reflexivity | ].
        destruct (Z.le_gt_cases ib ia) as [ Hle | Hgt ]; [ exact Hle | ].
        exfalso. apply H. apply IZR_le. lia.
    + unfold Rmax. destruct (Rle_dec (IZR ia) (IZR ib)) as [ H | H ].
      * apply le_IZR in H. rewrite Z.max_r by lia. reflexivity.
      * rewrite Z.max_l; [ reflexivity | ].
        destruct (Z.le_gt_cases ib ia) as [ Hle | Hgt ]; [ exact Hle | ].
        exfalso. apply H. apply IZR_le. lia.
Qed.

End RoundInterval.

(** ** The angle of [x] and [-x] *)

Module ExactAngle.

Import Exact ExactSimpson.
Local Open Scope R_scope.

Lemma R_ltb_true (x y : R) : x < y -> R_ltb x y = true.
Proof. intros H. unfold R_ltb. destruct (Rlt_dec x y); [ reflexivity | contradiction ]. Qed.

Lemma R_ltb_false (x y : R) : y <= x -> R_ltb x y = false.
Proof. intros H. unfold R_ltb. destruct (Rlt_dec x y); [ lra | reflexivity ]. Qed.

Lemma R_ltb_spec (x y : R) : reflect (x < y) (R_ltb x y).
Proof.
  unfold R_ltb. destruct (Rlt_dec x y); constructor; assumption.
Qed.

Lemma R_eqb_false (x y : R) : x <> y -> R_eqb x y = false.
Proof. intros H. unfold R_eqb. destruct (Req_dec_T x y); [ contradiction | reflexivity ]. Qed.

Lemma R_eqb_true (x y : R) : x = y -> R_eqb x y = true.
Proof. intros H. unfold R_eqb. destruct (Req_dec_T x y); [ reflexivity | contradiction ]. Qed.

Lemma R_pow_2 (x : R) : R_pow x 2 = x * x.
Proof. unfold R_pow. destruct (Req_dec_T 2 2); [ reflexivity | contradiction ]. Qed.

Lemma R_pow_3 (x : R) : R_pow x 3 = x * x * x.
Proof.
  unfold R_pow. destruct (Req_dec_T 3 2); [ lra | ].
  destruct (Req_dec_T 3 3); [ reflexivity | contradiction ].
Qed.

Lemma evaluate_squared (f : MathNode R) (x : R) :
  evaluate (squared f) x = evaluate f x * evaluate f x.
Proof. cbn. apply R_pow_2. Qed.

Lemma evaluate_product (f g : MathNode R) (x : R) :
  evaluate (product f g) x = evaluate f x * evaluate g x.
Proof. reflexivity. Qed.

Lemma evaluate_negated (f : MathNode R) (x : R) :
  evaluate (negated f) x = - evaluate f x.
Proof. reflexivity. Qed.

Definition x_exact : MathNode R := SymbolX.
Definition minus_x_exact : MathNode R := UnaryMinus SymbolX.
Definition easyInterval_exact : R * R := (-1, 1).

Lemma inner_product_x_minus_x : innerProductOf x_exact minus_x_exact easyInterval_exact = - (2 / 3).
Proof.
  unfold innerProductOf.
  rewrite (@integrate_quadratic _ (-1) 0 0) by (intros x; cbn; ring).
  cbn. field.
Qed.

Lemma inner_product_x_x : innerProductOf x_exact (negated minus_x_exact) easyInterval_exact = 2 / 3.
Proof.
  unfold innerProductOf.
  rewrite (@integrate_quadratic _ 1 0 0) by (intros x; cbn; ring).
  cbn. field.
Qed.

Lemma norm_of_x (f : MathNode R) :
  (forall x, evaluate f x = x \/ evaluate f x = - x) ->
  norm f easyInterval_exact = sqrt (2 / 3).
Proof.
  intros Hf. unfold norm. cbn [Math_sqrt R_Number]. apply f_equal.
  rewrite (@integrate_quadratic _ 1 0 0).
  - cbn. field.
  - intros x. rewrite evaluate_squared. destruct (Hf x) as [ -> | -> ]; ring.
Qed.

Lemma sqrt_two_thirds_pos : 0 < sqrt (2 / 3).
Proof. apply sqrt_lt_R0. lra. Qed.

Lemma acos_minus_1 : acos (Ropp 1) = PI.
Proof. rewrite acos_opp, acos_1. ring. Qed.

Lemma norms_of_x_and_minus_x :
  norm x_exact easyInterval_exact = sqrt (2 / 3)
  /\ norm minus_x_exact easyInterval_exact = sqrt (2 / 3)
  /\ norm (negated minus_x_exact) easyInterval_exact = sqrt (2 / 3).
Proof.
  repeat split; apply norm_of_x; intros x;
    [ left; reflexivity | right; reflexivity | left; cbn; ring ].
Qed.

Lemma plain_angle_of_x_and_minus_x :
  calculateAngle x_exact minus_x_exact false easyInterval_exact false
  = mkAngleResult (Some 180) x_exact minus_x_exact.
Proof.
  destruct norms_of_x_and_minus_x as (Hn1 & Hn2 & _).
  pose proof sqrt_two_thirds_pos as Hpos.
  assert (Hsq : sqrt (2 / 3) * sqrt (2 / 3) = 2 / 3) by (apply sqrt_sqrt; lra).
  unfold calculateAngle, angleOf. cbn [andb].
  rewrite Hn1, Hn2, inner_product_x_minus_x.
  cbn [neq ofZ ndiv nmul nopp R_Number Math_max Math_min Math_acos Math_PI
       R_MathLib].
  rewrite (R_eqb_false (x := sqrt (2 / 3)) (y := 0)) by lra. cbn [orb].
  rewrite Hsq.
  replace (- (2 / 3) / (2 / 3)) with (-1) by (field; lra).
  rewrite Rmin_right by lra. rewrite Rmax_left by lra.
  rewrite acos_minus_1.
  replace (PI * (180 / PI)) with 180 by (field; apply PI_neq0).
  reflexivity.
Qed.

Lemma acute_angle_of_x_and_minus_x :
  calculateAngle x_exact minus_x_exact false easyInterval_exact true
  = mkAngleResult (Some 0) x_exact (negated minus_x_exact).
Proof.
  destruct norms_of_x_and_minus_x as (Hn1 & _ & Hn3).
  pose proof sqrt_two_thirds_pos as Hpos.
  assert (Hsq : sqrt (2 / 3) * sqrt (2 / 3) = 2 / 3) by (apply sqrt_sqrt; lra).
  unfold calculateAngle, angleOf. rewrite inner_product_x_minus_x.
  cbn [nlt ofZ nopp R_Number].
  rewrite (R_ltb_true (x := - (2 / 3)) (y := 0)) by lra. cbn [andb].
  rewrite Hn1, Hn3.
  cbn [neq ofZ ndiv nmul nopp R_Number Math_max Math_min Math_acos Math_PI
       R_MathLib].
  rewrite (R_eqb_false (x := sqrt (2 / 3)) (y := 0)) by lra. cbn [orb].
  rewrite Hsq.
  replace (- - (2 / 3) / (2 / 3)) with 1 by (field; lra).
  rewrite Rmin_left by lra. rewrite Rmax_right by lra.
  rewrite acos_1.
  replace (0 * (180 / PI)) with 0 by (field; apply PI_neq0).
  reflexivity.
Qed.

(** C3: for [f1 = x], [f2 = -x] on [[-1, 1]] without normalisation, the
    inner product is [-2/3], both norms are [sqrt (2/3)] and the angle is 180
    degrees; in acute mode [f2] is flipped, to an expression equal to [x]
    everywhere, and the angle is 0 degrees. *)
Theorem angle_of_x_and_minus_x :
  innerProductOf x_exact minus_x_exact easyInterval_exact = - (2 / 3)
  /\ norm x_exact easyInterval_exact = sqrt (2 / 3)
  /\ norm minus_x_exact easyInterval_exact = sqrt (2 / 3)
  /\ - (2 / 3) / (sqrt (2 / 3) * sqrt (2 / 3)) = -1
  /\ calculateAngle x_exact minus_x_exact false easyInterval_exact false
     = mkAngleResult (Some 180) x_exact minus_x_exact
  /\ calculateAngle x_exact minus_x_exact false easyInterval_exact true
     = mkAngleResult (Some 0) x_exact (negated minus_x_exact)
  /\ (forall x : R, evaluate (negated minus_x_exact) x = evaluate x_exact x).
Proof.
  destruct norms_of_x_and_minus_x as (Hn1 & Hn2 & _).
  split; [ exact inner_product_x_minus_x | ].
  split; [ exact Hn1 | ]. split; [ exact Hn2 | ].
  split; [ rewrite sqrt_sqrt by lra; field | ].
  split; [ exact plain_angle_of_x_and_minus_x | ].
  split; [ exact acute_angle_of_x_and_minus_x | ].
  intros x. cbn. ring.
Qed.

End ExactAngle.

(** ** The norm in exact arithmetic *)

Module ExactRange.

Import Exact ExactAngle.
Local Open Scope R_scope.

Lemma norm_nonneg (f : MathNode R) (interval : R * R) : 0 <= norm f interval.
Proof. unfold norm. apply sqrt_pos. Qed.

End ExactRange.

(** ** The score in exact arithmetic *)

Module ExactScore.

Import Exact ExactAngle.
Local Open Scope R_scope.

Definition scoreOf (actual guess : R) : R := snd (submitGuess actual guess).

Lemma scoreOf_formula (actual guess : R) :
  scoreOf actual guess
  = 100 * (Rmax 0 (1 - Rabs (actual - guess) / 180)) ^ 3.
Proof.
  unfold scoreOf, submitGuess. cbn [snd].
  cbn [ofZ nmul nsub ndiv Math_abs Math_max R_Number Math_pow R_MathLib].
  rewrite R_pow_3. ring.
Qed.

End ExactScore.

(** ** The retry loops *)

Section Retry.

Context {N : Type} {num : Number N}.

(** The values [body] yields, one after the other, along a tape. *)
Inductive Draws {A : Type} (body : Gen N A) : Tape N -> list A -> Tape N -> Prop :=
  | Draws_nil : forall t, Draws body t [] t
  | Draws_cons : forall t v t1 vs t',
      body t = Some (v, t1) ->
      Draws body t1 vs t' ->
      Draws body t (v :: vs) t'.

Lemma last_cons {A : Type} (l : list A) :
  forall x d : A, last (x :: l) d = last l x.
Proof.
  induction l as [ | y l IH ]; intros x d; [ reflexivity | ].
  change (last (x :: y :: l) d) with (last (y :: l) d).
  rewrite (IH y d), (IH y x). reflexivity.
Qed.

(** A loop that returns has left on a value that fails its condition. *)
Lemma whileLoop_exit {A : Type} (cond : A -> bool) (body : Gen N A) :
  forall (fuel : nat) (v : A) (turns : nat) (t t' : Tape N) (v' : A) (n : nat),
    whileLoop fuel cond body v turns t = Some ((v', n), t') ->
    cond v' = false.
Proof.
  induction fuel as [ | fuel IH ]; intros v turns t t' v' n;
    cbn [whileLoop]; destruct (cond v) eqn:Hc.
  - discriminate.
  - intros [= <- _ _]. exact Hc.
  - unfold bind. destruct (body t) as [ [ v1 t1 ] | ]; [ apply IH | discriminate ].
  - intros [= <- _ _]. exact Hc.
Qed.

(** However many values in a row satisfy the condition, the loop goes on,
    and it returns the first that does not, with the number of turns taken:
    nothing bounds that number but the fuel of the model. *)
Lemma whileLoop_turns {A : Type} (cond : A -> bool) (body : Gen N A) :
  forall (vs : list A) (v : A) (t t' : Tape N) (fuel turns : nat),
    Draws body t vs t' ->
    forallb cond (removelast (v :: vs)) = true ->
    cond (last vs v) = false ->
    (length vs <= fuel)%nat ->
    whileLoop fuel cond body v turns t
    = Some ((last vs v, (turns + length vs)%nat), t').
Proof.
  induction vs as [ | v1 vs IH ]; intros v t t' fuel turns Hd Hall Hlast Hfuel.
  - inversion Hd; subst. cbn [last] in Hlast. cbn [length].
    rewrite Nat.add_0_r.
    destruct fuel; cbn [whileLoop]; rewrite Hlast; reflexivity.
  - inversion Hd as [ | t0 v0 t1 vs0 t0' Hbody Hrest ]; subst.
    change (removelast (v :: v1 :: vs)) with (v :: removelast (v1 :: vs)) in Hall.
    cbn [forallb] in Hall. apply andb_prop in Hall. destruct Hall as [ Hv Hall ].
    destruct fuel as [ | fuel ]; [ cbn in Hfuel; lia | ].
    cbn [whileLoop]. rewrite Hv. unfold bind at 1. rewrite Hbody.
    rewrite (IH v1 t1 t' fuel (S turns) Hrest Hall).
    + cbn [length]. rewrite last_cons. do 3 f_equal. lia.
    + rewrite last_cons in Hlast. exact Hlast.
    + cbn [length] in Hfuel. lia.
Qed.

(** X3: what [getNewFunctions] returns: the first function as generated, and
    a second one that is neither equal to it nor has it as its negation. *)
Lemma getNewFunctions_returns (fuel : nat) (interval : N * N) (t t' : Tape N)
    (f1 f2 : MathNode N) :
  getNewFunctions fuel interval t = Some ((f1, f2), t') ->
  equals f1 f2 = false
  /\ equals f1 (negated f2) = false
  /\ exists t1, generateRandomFunction (intervalLimitOf interval) t = Some (f1, t1).
Proof.
  unfold getNewFunctions, getNewFunctionsTurns, bind, ret.
  destruct (generateRandomFunction (intervalLimitOf interval) t)
    as [ [ g1 t1 ] | ]; [ | discriminate ].
  destruct (generateRandomFunction (intervalLimitOf interval) t1)
    as [ [ g2 t2 ] | ]; [ | discriminate ].
  destruct (whileLoop fuel (identicalOrNegative g1)
              (generateRandomFunction (intervalLimitOf interval)) g2 0 t2)
    as [ [ [ v n ] t3 ] | ] eqn:Hloop; [ | discriminate ].
  cbn [fst snd]. intros [= <- <- <-].
  apply whileLoop_exit in Hloop. unfold identicalOrNegative in Hloop.
  apply orb_false_elim in Hloop. destruct Hloop as [ He Hn ].
  repeat split; try assumption. exists t1. reflexivity.
Qed.

End Retry.

Section RetryLoops.

Context {N : Type} {num : Number N} {lib : MathLib N}.

(** C9 (as the code has it): neither retry loop has a cap on its turns or
    an error for running out of them.  [getNewFunctions] draws the second
    function again as long as it is identical to the first or has the first as
    its negation, [startNewRound] tries again as long as the angle is [null];
    each returns at the first draw that passes, after as many turns as there
    were failing draws before it, whatever that number. *)
Theorem retry_loops_have_no_cap
    (interval : N * N) (isUnitaryMode acuteAnglesOnly : bool)
    (fuel : nat) (f1 f2 : MathNode N) (f2s : list (MathNode N)) (t t' : Tape N)
    (fuel' : nat) (rs : list (option (AngleResult N))) (u u' : Tape N) :
  Draws (generateRandomFunction (intervalLimitOf interval)) t (f1 :: f2 :: f2s) t' ->
  forallb (identicalOrNegative f1) (removelast (f2 :: f2s)) = true ->
  identicalOrNegative f1 (last f2s f2) = false ->
  (List.length f2s <= fuel)%nat ->
  Draws (attemptRound fuel' interval isUnitaryMode acuteAnglesOnly) u rs u' ->
  forallb noAngle (removelast (None :: rs)) = true ->
  noAngle (last rs None) = false ->
  (List.length rs <= fuel')%nat ->
  getNewFunctionsTurns fuel interval t
  = Some ((f1, last f2s f2, List.length f2s), t')
  /\ startNewRound fuel' interval isUnitaryMode acuteAnglesOnly u
     = Some ((last rs None, List.length rs), u').
Proof.
  intros Hd Hall Hlast Hfuel Hd' Hall' Hlast' Hfuel'.
  split.
  - inversion Hd as [ | t0 v0 t1 vs0 t0' Hg1 Hd1 ]; subst.
    inversion Hd1 as [ | t0 v0 t2 vs0 t0' Hg2 Hd2 ]; subst.
    unfold getNewFunctionsTurns, bind. rewrite Hg1, Hg2.
    rewrite (whileLoop_turns (identicalOrNegative f1) f2 0 Hd2 Hall Hlast Hfuel).
    reflexivity.
  - unfold startNewRound.
    rewrite (whileLoop_turns noAngle None 0 Hd' Hall' Hlast' Hfuel').
    reflexivity.
Qed.

End RetryLoops.

(** ** Runs in binary64 *)

Module Runs.

Import Binary64.
Local Open Scope float_scope.

(** The trees of [x], [1 / x] and [-x]. *)
Definition x_ : MathNode float := SymbolX.
Definition inv_x : MathNode float :=
  OperatorNode Divide (ConstantNode 1) SymbolX.
Definition minus_x : MathNode float := UnaryMinus SymbolX.

Definition easyInterval : float * float := (-1, 1).

Section WithLibm.

Context {L : Libm}.

(** On [[-1, 1]] the hundredth abscissa of Simpson's rule is [0], where
    [x * (1 / x)] is [0 * Infinity]: the inner product of [x] and [1 / x] is
    NaN.  No test of [calculateAngle] stops it ([NaN === 0] and [NaN < 0] are
    false, the clamp keeps NaN): the cosine handed to [Math.acos] is NaN and
    the answer is not [null]. *)
Lemma nan_cosine_reaches_acos (ensureAcute : bool) :
  calculateAngle x_ inv_x false easyInterval ensureAcute
  = mkAngleResult (Some (libm_acos nan * (180 / 0x1.921fb54442d18p+1)))
      x_ inv_x.
Proof. destruct ensureAcute; vm_compute; reflexivity. Qed.

Lemma nan_inner_product :
  innerProductOf x_ inv_x easyInterval = nan.
Proof. vm_compute. reflexivity. Qed.

(** Two constants: the square of the first overflows, the square of the
    second underflows to zero. *)
Definition huge : MathNode float := ConstantNode 0x1p700.
Definition tiny : MathNode float := ConstantNode 0x1p-700.
Definition minus_one : MathNode float := UnaryMinus (ConstantNode 1).

(** C10: a [null] result does not always carry the inputs.  The early check
    of the unitary mode returns them untouched.  The later check can answer
    [null] with expressions already rewritten: in unitary mode [2^700] has
    the norm [Infinity], is divided by it and becomes the zero function,
    whose norm is [0]; in acute mode the inner product of [2^-700] and [-1]
    is negative, so [f2] is negated, and then the norm of [2^-700]
    underflows to [0]. *)
Theorem null_result_expressions :
  (forall (f1 f2 : MathNode float) (interval : float * float) (acute : bool),
      PrimFloat.eqb (norm f1 interval) 0 || PrimFloat.eqb (norm f2 interval) 0
      = true ->
      calculateAngle f1 f2 true interval acute = mkAngleResult None f1 f2)
  /\ calculateAngle huge x_ true easyInterval false
     = mkAngleResult None (dividedBy huge infinity)
         (dividedBy x_ (norm x_ easyInterval))
  /\ equals (dividedBy huge infinity) huge = false
  /\ calculateAngle tiny minus_one false easyInterval true
     = mkAngleResult None tiny (negated minus_one)
  /\ equals (negated minus_one) minus_one = false.
Proof.
  split; [ | repeat split; vm_compute; reflexivity ].
  intros f1 f2 interval acute Hzero.
  apply early_null_returns_inputs. exact Hzero.
Qed.

(** The scenario of [x] and [-x] as binary64 computes it: the inner product
    is one unit in the last place away from [-2/3] and the quotient is just
    below [-1]; the clamp brings it back to [-1], and [1] in acute mode. *)
Lemma x_minus_x_cosines :
  innerProductOf x_ minus_x easyInterval = -0x1.5555555555556p-1
  /\ norm x_ easyInterval = 0x1.a20bd700c2c3ep-1
  /\ norm minus_x easyInterval = 0x1.a20bd700c2c3ep-1
  /\ calculateAngle x_ minus_x false easyInterval false
     = mkAngleResult (Some (libm_acos (-1) * (180 / 0x1.921fb54442d18p+1)))
         x_ minus_x
  /\ calculateAngle x_ minus_x false easyInterval true
     = mkAngleResult (Some (libm_acos 1 * (180 / 0x1.921fb54442d18p+1)))
         x_ (negated minus_x).
Proof. repeat split; vm_compute; reflexivity. Qed.

Lemma x_minus_x_binary64 :
  libm_acos (-1) = 0x1.921fb54442d18p+1 ->
  libm_acos 1 = 0 ->
  calculateAngle x_ minus_x false easyInterval false
  = mkAngleResult (Some 180) x_ minus_x
  /\ calculateAngle x_ minus_x false easyInterval true
     = mkAngleResult (Some 0) x_ (negated minus_x).
Proof.
  intros Hm1 H1.
  destruct x_minus_x_cosines as (_ & _ & _ & -> & ->).
  rewrite Hm1, H1. split; reflexivity.
Qed.

(** [Math.acos(NaN)] is NaN in every conforming engine. *)
Hypothesis acos_nan : libm_acos nan = nan.

(** C1 (fails on the code): [calculateAngle] is claimed to answer [null] or
    a finite angle in [[0, 180]] and never NaN.  For [f1 = x], [f2 = 1 / x] on
    [[-1, 1]] it answers the angle NaN, which is neither. *)
Theorem calculateAngle_leaks_nan (isAcute : bool) :
  angle (calculateAngle x_ inv_x false easyInterval isAcute) = Some nan
  /\ float_isFinite nan = false.
Proof.
  rewrite nan_cosine_reaches_acos. cbn [angle]. rewrite acos_nan.
  split; reflexivity.
Qed.

(** C5 (fails on the code): in acute mode a result that is not [null] is
    claimed to have a non-negative inner product.  For [f1 = x], [f2 = 1 / x]
    on [[-1, 1]] the result is not [null] and the inner product of the
    returned expressions, computed again, is NaN: [0 <= NaN] is false. *)
Theorem acute_result_with_nan_inner_product :
  let r := calculateAngle x_ inv_x false easyInterval true in
  angle r = Some nan
  /\ innerProductOf (f1_final r) (f2_final r) easyInterval = nan
  /\ PrimFloat.leb 0 (innerProductOf (f1_final r) (f2_final r) easyInterval)
     = false.
Proof.
  cbv zeta. rewrite nan_cosine_reaches_acos. cbn [angle f1_final f2_final].
  rewrite acos_nan, nan_inner_product. repeat split; reflexivity.
Qed.

End WithLibm.

Section WithSpecLibm.

#[local] Existing Instance specLibm.

Lemma calculateAngle_leaks_nan_witness :
  angle (calculateAngle x_ inv_x false easyInterval false) = Some nan
  /\ float_isFinite nan = false.
Proof.
  apply (calculateAngle_leaks_nan (L := specLibm)). reflexivity.
Defined.

Lemma acute_result_with_nan_inner_product_witness :
  let r := calculateAngle x_ inv_x false easyInterval true in
  angle r = Some nan
  /\ innerProductOf (f1_final r) (f2_final r) easyInterval = nan
  /\ PrimFloat.leb 0 (innerProductOf (f1_final r) (f2_final r) easyInterval)
     = false.
Proof.
  apply (acute_result_with_nan_inner_product (L := specLibm)). reflexivity.
Defined.

End WithSpecLibm.

End Runs.

(** ** Runs of the generator in binary64 *)

Module GeneratorRuns.

Import Binary64 Runs.
Local Open Scope float_scope.

(** The base functions in their own order. *)
Definition unsorted : Draw float := Sorted (seq 0 13).

(** The draws that make the generator answer [x]: one function, [x] first,
    no scalar, no sign. *)
Definition drawsOfX : Tape float :=
  [ Random 0.25; unsorted; Random 0.5; Random 0.75 ].

(** The same with the sign: the generator answers [-(x)]. *)
Definition drawsOfMinusX : Tape float :=
  [ Random 0.25; unsorted; Random 0.5; Random 0.25 ].

Definition negated_x : MathNode float := negated x_.

Lemma generates_x (t : Tape float) :
  generateRandomFunction 1 (drawsOfX ++ t) = Some (x_, t).
Proof. reflexivity. Qed.

Lemma generates_minus_x (t : Tape float) :
  generateRandomFunction 1 (drawsOfMinusX ++ t) = Some (negated_x, t).
Proof. reflexivity. Qed.

Lemma draws_x_then_minus_x :
  getNewFunctions 1000 easyInterval (drawsOfX ++ drawsOfMinusX)
  = Some ((x_, negated_x), []).
Proof. vm_compute. reflexivity. Qed.

(** C2 (fails on the code): the pair is claimed to exclude a negation in
    either direction.  When the generator draws [x] and then [-(x)], the loop
    of [getNewFunctions] lets the pair through: it compares [f1] with [f2] and
    with the negation of [f2], never [f2] with the negation of [f1]. *)
Theorem getNewFunctions_returns_a_negation :
  getNewFunctions 1000 easyInterval (drawsOfX ++ drawsOfMinusX)
  = Some ((x_, negated_x), [])
  /\ equals negated_x (negated x_) = true
  /\ identicalOrNegative x_ negated_x = false.
Proof.
  split; [ exact draws_x_then_minus_x | split; vm_compute; reflexivity ].
Qed.

Lemma getNewFunctions_returns_witness :
  equals x_ negated_x = false
  /\ equals x_ (negated negated_x) = false
  /\ exists t1,
       generateRandomFunction (intervalLimitOf easyInterval)
         (drawsOfX ++ drawsOfMinusX) = Some (x_, t1).
Proof.
  apply (@getNewFunctions_returns float float_Number 1000 easyInterval
           (drawsOfX ++ drawsOfMinusX) [] x_ negated_x).
  exact draws_x_then_minus_x.
Defined.

(** Against C9: a run of [getNewFunctions] whose loop takes 1001 turns and
    then returns a pair; no cap stops it and no error is raised. *)
Lemma getNewFunctions_after_1001_turns :
  getNewFunctionsTurns 2000 easyInterval
    (drawsOfX ++ concat (repeat drawsOfX 1001) ++ drawsOfMinusX)
  = Some ((x_, negated_x, 1001%nat), []).
Proof. vm_compute. reflexivity. Qed.

Section WithSpecLibm.

#[local] Existing Instance specLibm.

Lemma retry_loops_have_no_cap_witness :
  getNewFunctionsTurns 5 easyInterval
    (drawsOfX ++ drawsOfX ++ drawsOfX ++ drawsOfMinusX)
  = Some ((x_, last [x_; negated_x] x_, List.length [x_; negated_x]), [])
  /\ startNewRound 3 easyInterval false false (drawsOfX ++ drawsOfMinusX)
     = Some ((last [Some (mkAngleResult (Some 180) x_ negated_x)] None,
              List.length [Some (mkAngleResult (Some 180) x_ negated_x)]), []).
Proof.
  apply (@retry_loops_have_no_cap float float_Number float_MathLib
           easyInterval false false
           5%nat x_ x_ [x_; negated_x]
           (drawsOfX ++ drawsOfX ++ drawsOfX ++ drawsOfMinusX) []
           3%nat [Some (mkAngleResult (Some 180) x_ negated_x)]
           (drawsOfX ++ drawsOfMinusX) []).
  - repeat (eapply Draws_cons; [ vm_compute; reflexivity | ]). apply Draws_nil.
  - vm_compute. reflexivity.
  - vm_compute. reflexivity.
  - cbn. lia.
  - eapply Draws_cons; [ vm_compute; reflexivity | ]. apply Draws_nil.
  - reflexivity.
  - reflexivity.
  - cbn. lia.
Defined.

End WithSpecLibm.

End GeneratorRuns.

(** * More of the code *)

(** ** Where Simpson's rule looks at the integrand *)

Section Abscissas.

Context {N : Type} {num : Number N}.
Local Open Scope num_scope.

(** The arguments one loop hands to [func]. *)
Fixpoint loopAbscissas (fuel : nat) (a h : N) (i bound : Z) : list N :=
  match fuel with
  | O => []
  | S fuel' =>
      if (i <? bound)%Z
      then (a + ofZ i * h) :: loopAbscissas fuel' a h (i + 2) bound
      else []
  end.

(** The arguments [simpsonsRule] hands to [func], in the order of the calls. *)
Definition simpsonAbscissas (a b : N) (n : Z) : list N :=
  let n := if (Z.rem n 2 =? 0)%Z then n else (n + 1)%Z in
  let h := (b - a) / ofZ n in
  a :: b :: loopAbscissas (Z.to_nat n) a h 1 n
    ++ loopAbscissas (Z.to_nat n) a h 2 (n - 1).

Lemma simpsonLoop_agree (f g : N -> N) (a h w : N) (bound : Z) :
  forall (fuel : nat) (i : Z) (sum : N),
    (forall x, In x (loopAbscissas fuel a h i bound) -> f x = g x) ->
    simpsonLoop fuel f a h w i bound sum = simpsonLoop fuel g a h w i bound sum.
Proof.
  induction fuel as [ | fuel IH ]; intros i sum Hfg;
    cbn [simpsonLoop loopAbscissas] in *.
  - reflexivity.
  - destruct (i <? bound)%Z; [ | reflexivity ].
    rewrite (Hfg (a + ofZ i * h)) by (left; reflexivity).
    apply IH. intros x Hx. apply Hfg. right. exact Hx.
Qed.

(** [simpsonsRule] depends on the integrand only through its values at
    [a], [b] and the abscissas [a + i * h] of its two loops. *)
Lemma simpsonsRule_agree (f g : N -> N) (a b : N) (n : Z) :
  (forall x, In x (simpsonAbscissas a b n) -> f x = g x) ->
  simpsonsRule f a b n = simpsonsRule g a b n.
Proof.
  unfold simpsonAbscissas, simpsonsRule. cbv zeta.
  set (n' := if (Z.rem n 2 =? 0)%Z then n else (n + 1)%Z).
  set (h := (b - a) / ofZ n'). intros Hfg.
  rewrite (Hfg a) by (left; reflexivity).
  rewrite (Hfg b) by (right; left; reflexivity).
  assert (H1 : forall s, simpsonLoop (Z.to_nat n') f a h (ofZ 4) 1 n' s
                         = simpsonLoop (Z.to_nat n') g a h (ofZ 4) 1 n' s).
  { intros s. apply simpsonLoop_agree. intros x Hx. apply Hfg.
    right. right. apply in_or_app. left. exact Hx. }
  assert (H2 : forall s, simpsonLoop (Z.to_nat n') f a h (ofZ 2) 2 (n' - 1) s
                         = simpsonLoop (Z.to_nat n') g a h (ofZ 2) 2 (n' - 1) s).
  { intros s. apply simpsonLoop_agree. intros x Hx. apply Hfg.
    right. right. apply in_or_app. right. exact Hx. }
  rewrite H1, H2. reflexivity.
Qed.

Lemma integrate_pointwise (f g : N -> N) (a b : N) :
  (forall x, f x = g x) -> integrate f a b = integrate g a b.
Proof. intros Hfg. apply simpsonsRule_agree. intros x _. apply Hfg. Qed.

End Abscissas.

(** ** Composition of expressions *)

Section Composition.

Context {N : Type} {num : Number N} {lib : MathLib N}.

(** The tree [transform] builds for a composition evaluates as the
    composition of the two functions. *)
Lemma evaluate_substitute (e g : MathNode N) (x : N) :
  evaluate (substitute e g) x = evaluate e (evaluate g x).
Proof.
  induction e as [ | c | op l IHl r IHr | u IH | fn u IH | u IH ];
    cbn [substitute evaluate]; congruence.
Qed.

End Composition.

(** ** Simpson's rule in exact arithmetic, continued *)

Module ExactIntegral.

Import Exact ExactSimpson.
Local Open Scope R_scope.

Lemma simpsonLoop_linear (f g : R -> R) (c a h w : R) (bound : Z) :
  forall (fuel : nat) (i : Z) (s t : R),
    simpsonLoop fuel (fun x => c * f x + g x) a h w i bound (c * s + t)
    = c * simpsonLoop fuel f a h w i bound s + simpsonLoop fuel g a h w i bound t.
Proof.
  induction fuel as [ | fuel IH ]; intros i s t; cbn [simpsonLoop].
  - reflexivity.
  - destruct (i <? bound)%Z; [ | reflexivity ].
    rewrite <- IH. f_equal. cbn [nadd nmul ofZ R_Number]. ring.
Qed.

Lemma simpsonsRule_combination (f g : R -> R) (c a b : R) (n : Z) :
  simpsonsRule (fun x => c * f x + g x) a b n
  = c * simpsonsRule f a b n + simpsonsRule g a b n.
Proof.
  unfold simpsonsRule. cbv zeta. cbn [nadd nmul ndiv nsub ofZ R_Number].
  replace (c * f a + g a + (c * f b + g b))
    with (c * (f a + f b) + (g a + g b)) by ring.
  rewrite simpsonLoop_linear, simpsonLoop_linear. ring.
Qed.

Lemma simpsonLoop_nonneg (f : R -> R) (a h w : R) (bound : Z) :
  0 <= w -> (forall x, 0 <= f x) ->
  forall (fuel : nat) (i : Z) (sum : R),
    0 <= sum -> 0 <= simpsonLoop fuel f a h w i bound sum.
Proof.
  intros Hw Hf. induction fuel as [ | fuel IH ]; intros i sum Hs;
    cbn [simpsonLoop].
  - exact Hs.
  - destruct (i <? bound)%Z; [ | exact Hs ].
    apply IH. cbn [nadd nmul ofZ R_Number].
    pose proof (Hf (a + IZR i * h)) as Hfi.
    pose proof (Rmult_le_pos _ _ Hw Hfi). lra.
Qed.

(** X5: over an interval [a <= b] and with [n > 0], the rule gives a
    non-negative result for an integrand that is nowhere negative; so the
    integral of a square, under the root of a norm, is never negative. *)
Theorem simpsonsRule_nonneg (f : R -> R) (a b : R) (n : Z) :
  a <= b -> (0 < n)%Z -> (forall x, 0 <= f x) ->
  0 <= simpsonsRule f a b n.
Proof.
  intros Hab Hn Hf. unfold simpsonsRule. cbv zeta.
  set (n' := if (Z.rem n 2 =? 0)%Z then n else (n + 1)%Z).
  assert (Hn' : (0 < n')%Z) by (unfold n'; destruct (_ =? _)%Z; lia).
  cbn [nadd nmul ndiv nsub ofZ R_Number].
  assert (Hpos : 0 < IZR n') by (apply IZR_lt; exact Hn').
  apply Rmult_le_pos.
  - apply Rmult_le_pos; [ | lra ].
    apply Rmult_le_pos; [ lra | apply Rlt_le, Rinv_0_lt_compat; exact Hpos ].
  - apply simpsonLoop_nonneg; [ lra | exact Hf | ].
    apply simpsonLoop_nonneg; [ lra | exact Hf | ].
    pose proof (Hf a). pose proof (Hf b). lra.
Qed.

Lemma simpsonsRule_nonneg_witness :
  0 <= simpsonsRule (fun x => x * x) (-1) 1 200.
Proof.
  apply (@simpsonsRule_nonneg (fun x => x * x) (-1) 1 200).
  - lra.
  - lia.
  - intros x. nra.
Defined.

End ExactIntegral.

(** ** Laws of the angle in exact arithmetic *)

Module ExactAngleLaws.

Import Exact ExactSimpson ExactAngle ExactRange ExactIntegral.
Local Open Scope R_scope.

Lemma integrate_scale (f g : R -> R) (c a b : R) :
  (forall x, g x = c * f x) ->
  integrate g a b = c * integrate f a b.
Proof.
  intros Hg. unfold integrate.
  rewrite (simpsonsRule_agree g (fun x => c * f x + (fun _ => 0) x))
    by (intros x _; rewrite Hg; ring).
  rewrite simpsonsRule_combination, simpsonsRule_constant by lia. ring.
Qed.

Lemma norm_pointwise (f g : MathNode R) (interval : R * R) :
  (forall x, evaluate g x = evaluate f x \/ evaluate g x = - evaluate f x) ->
  norm g interval = norm f interval.
Proof.
  intros Hg. unfold norm. f_equal. apply integrate_pointwise.
  intros x. rewrite !evaluate_squared. destruct (Hg x) as [ -> | -> ]; ring.
Qed.

Lemma norm_negated (f : MathNode R) (interval : R * R) :
  norm (negated f) interval = norm f interval.
Proof. apply norm_pointwise. intros x. right. reflexivity. Qed.

Lemma innerProductOf_comm (f g : MathNode R) (interval : R * R) :
  innerProductOf f g interval = innerProductOf g f interval.
Proof.
  unfold innerProductOf. apply integrate_pointwise.
  intros x. cbn. ring.
Qed.

Lemma norm_squared (f : MathNode R) (interval : R * R) :
  norm f interval <> 0 ->
  integrate (evaluate (squared f)) (fst interval) (snd interval)
  = norm f interval * norm f interval.
Proof.
  unfold norm. cbn [Math_sqrt R_Number].
  generalize (integrate (evaluate (squared f)) (fst interval) (snd interval)).
  intros S Hn. symmetry. apply sqrt_sqrt.
  destruct (Rle_dec 0 S) as [ H | H ]; [ exact H | ].
  exfalso. apply Hn. apply sqrt_neg_0. lra.
Qed.

Lemma norm_dividedBy_self (f : MathNode R) (interval : R * R) :
  norm f interval <> 0 ->
  norm (dividedBy f (norm f interval)) interval = 1.
Proof.
  intros Hn. pose proof (@norm_squared f interval Hn) as Hsq.
  pose proof (norm_nonneg f interval) as Hpos.
  revert Hn Hsq Hpos. generalize (norm f interval). intros n Hn Hsq Hpos.
  unfold norm. cbn [Math_sqrt R_Number].
  rewrite (@integrate_scale (evaluate (squared f))
             (evaluate (squared (dividedBy f n))) (/ (n * n))).
  - rewrite Hsq. replace (/ (n * n) * (n * n)) with 1 by (field; lra).
    apply sqrt_1.
  - intros x. rewrite !evaluate_squared. cbn. field. lra.
Qed.

Lemma innerProductOf_dividedBy (f g : MathNode R) (n m : R) (interval : R * R) :
  n <> 0 -> m <> 0 ->
  innerProductOf (dividedBy f n) (dividedBy g m) interval
  = innerProductOf f g interval / (n * m).
Proof.
  intros Hn Hm. unfold innerProductOf.
  rewrite (@integrate_scale (evaluate (product f g))
             (evaluate (product (dividedBy f n) (dividedBy g m))) (/ (n * m))).
  - field. split; assumption.
  - intros x. cbn. field. split; assumption.
Qed.

(** The angle as a function of the inner product and the two norms. *)
Definition angleFrom (ip n1 n2 : R) : option R :=
  if R_eqb n1 0 || R_eqb n2 0 then None
  else Some (acos (Rmax (- (1)) (Rmin 1 (ip / (n1 * n2)))) * (180 / PI)).

#[local] Opaque innerProductOf norm.

Lemma angleOf_formula (f1 f2 : MathNode R) (interval : R * R) (ensureAcute : bool) :
  angle (angleOf f1 f2 interval ensureAcute)
  = angleFrom (if ensureAcute then Rabs (innerProductOf f1 f2 interval)
               else innerProductOf f1 f2 interval)
      (norm f1 interval) (norm f2 interval).
Proof.
  unfold angleOf, angleFrom. cbv zeta.
  cbn [nlt neq ndiv nmul nopp ofZ R_Number Math_max Math_min
       Math_acos Math_PI R_MathLib].
  destruct ensureAcute; cbn [andb].
  - destruct (R_ltb_spec (innerProductOf f1 f2 interval) 0) as [ Hneg | Hpos ].
    + rewrite norm_negated, Rabs_left by exact Hneg.
      destruct (_ || _); reflexivity.
    + rewrite Rabs_pos_eq by lra. destruct (_ || _); reflexivity.
  - destruct (_ || _); reflexivity.
Qed.

Lemma angleFrom_unit (ip n1 n2 : R) (acute : bool) :
  0 <= n1 -> 0 <= n2 -> R_eqb n1 0 || R_eqb n2 0 = false ->
  angleFrom (if acute then Rabs (ip / (n1 * n2)) else ip / (n1 * n2)) 1 1
  = angleFrom (if acute then Rabs ip else ip) n1 n2.
Proof.
  intros H1 H2 Hzero. unfold angleFrom. rewrite Hzero.
  apply orb_false_elim in Hzero. destruct Hzero as [ Hz1 Hz2 ].
  rewrite (R_eqb_false (x := 1) (y := 0)) by lra. cbn [orb].
  unfold R_eqb in Hz1, Hz2.
  destruct (Req_dec_T n1 0); [ discriminate | ].
  destruct (Req_dec_T n2 0); [ discriminate | ].
  assert (Hpos : 0 < n1 * n2) by (apply Rmult_lt_0_compat; lra).
  assert (Hq : (if acute then Rabs (ip / (n1 * n2)) else ip / (n1 * n2)) / (1 * 1)
               = (if acute then Rabs ip else ip) / (n1 * n2)).
  { destruct acute.
    - unfold Rdiv at 2. rewrite Rabs_mult, (Rabs_pos_eq (/ (n1 * n2))).
      + field. lra.
      + apply Rlt_le, Rinv_0_lt_compat. exact Hpos.
    - field. lra. }
  rewrite Hq. reflexivity.
Qed.

(** The angle of [calculateAngle], in both modes of normalisation. *)
Lemma calculateAngle_formula (f1 f2 : MathNode R) (isUnitary : bool)
    (interval : R * R) (ensureAcute : bool) :
  angle (calculateAngle f1 f2 isUnitary interval ensureAcute)
  = angleFrom (if ensureAcute then Rabs (innerProductOf f1 f2 interval)
               else innerProductOf f1 f2 interval)
      (norm f1 interval) (norm f2 interval).
Proof.
  unfold calculateAngle. destruct isUnitary; [ | apply angleOf_formula ].
  cbn [neq ofZ R_Number].
  destruct (R_eqb (norm f1 interval) 0 || R_eqb (norm f2 interval) 0) eqn:Hzero.
  - unfold angleFrom. rewrite Hzero. reflexivity.
  - rewrite angleOf_formula.
    pose proof Hzero as Hz. apply orb_false_elim in Hz. destruct Hz as [ Hz1 Hz2 ].
    unfold R_eqb in Hz1, Hz2.
    destruct (Req_dec_T (norm f1 interval) 0) as [ | Hn1 ]; [ discriminate | ].
    destruct (Req_dec_T (norm f2 interval) 0) as [ | Hn2 ]; [ discriminate | ].
    rewrite !norm_dividedBy_self by assumption.
    rewrite innerProductOf_dividedBy by assumption.
    apply angleFrom_unit; [ apply norm_nonneg | apply norm_nonneg | exact Hzero ].
Qed.

Lemma angleFrom_swap (ip n1 n2 : R) : angleFrom ip n1 n2 = angleFrom ip n2 n1.
Proof.
  unfold angleFrom. rewrite (orb_comm (R_eqb n2 0)), (Rmult_comm n2).
  reflexivity.
Qed.

(** X8: the angle does not depend on the order of the two functions. *)
Theorem angle_symmetric (f1 f2 : MathNode R) (isUnitary : bool)
    (interval : R * R) (ensureAcute : bool) :
  angle (calculateAngle f1 f2 isUnitary interval ensureAcute)
  = angle (calculateAngle f2 f1 isUnitary interval ensureAcute).
Proof.
  rewrite !calculateAngle_formula, (innerProductOf_comm f2 f1).
  apply angleFrom_swap.
Qed.

#[local] Transparent innerProductOf norm.

End ExactAngleLaws.

(** ** NaN in binary64 *)

Module Binary64NaN.

Import Binary64.
Local Open Scope float_scope.

Lemma nan_add_l (y : float) : nan + y = nan.
Proof. apply Prim2SF_inj. rewrite FloatAxioms.add_spec. reflexivity. Qed.

Lemma nan_add_r (y : float) : y + nan = nan.
Proof.
  apply Prim2SF_inj. rewrite FloatAxioms.add_spec.
  change (Prim2SF nan) with S754_nan. destruct (Prim2SF y); reflexivity.
Qed.

Lemma nan_mul_r (y : float) : y * nan = nan.
Proof.
  apply Prim2SF_inj. rewrite FloatAxioms.mul_spec.
  change (Prim2SF nan) with S754_nan. destruct (Prim2SF y); reflexivity.
Qed.

Lemma nan_mul_l (y : float) : nan * y = nan.
Proof. apply Prim2SF_inj. rewrite FloatAxioms.mul_spec. reflexivity. Qed.

Lemma nan_div_l (y : float) : nan / y = nan.
Proof. apply Prim2SF_inj. rewrite FloatAxioms.div_spec. reflexivity. Qed.

(** Once the running sum is NaN it stays NaN. *)
Lemma simpsonLoop_from_nan (f : float -> float) (a h w : float) (bound : Z) :
  forall (fuel : nat) (i : Z),
    simpsonLoop fuel f a h w i bound nan = nan.
Proof.
  induction fuel as [ | fuel IH ]; intros i; cbn [simpsonLoop].
  - reflexivity.
  - destruct (i <? bound)%Z; [ | reflexivity ].
    cbn [nadd float_Number]. rewrite nan_add_l. apply IH.
Qed.

Lemma simpsonLoop_nan_sample (f : float -> float) (a h w : float) (bound : Z)
    (x : float) :
  f x = nan ->
  forall (fuel : nat) (i : Z) (sum : float),
    In x (loopAbscissas fuel a h i bound) ->
    simpsonLoop fuel f a h w i bound sum = nan.
Proof.
  intros Hx. induction fuel as [ | fuel IH ]; intros i sum;
    cbn [simpsonLoop loopAbscissas].
  - intros [].
  - destruct (i <? bound)%Z; [ | intros [] ].
    intros [ Heq | Hin ].
    + rewrite Heq, Hx. cbn [nadd nmul float_Number].
      rewrite nan_mul_r, nan_add_r. apply simpsonLoop_from_nan.
    + apply IH. exact Hin.
Qed.

(** In binary64, an integrand that is NaN at one of the abscissas makes the
    whole integral NaN. *)
Lemma simpsonsRule_nan_sample (f : float -> float) (a b : float) (n : Z)
    (x : float) :
  In x (simpsonAbscissas a b n) -> f x = nan -> simpsonsRule f a b n = nan.
Proof.
  unfold simpsonAbscissas, simpsonsRule. cbv zeta.
  set (n' := if (Z.rem n 2 =? 0)%Z then n else (n + 1)%Z).
  cbn [nadd nsub nmul ndiv ofZ float_Number].
  set (h := (b - a) / float_ofZ n').
  intros Hin Hx.
  assert (Hsum : simpsonLoop (Z.to_nat n') f a h (float_ofZ 2) 2 (n' - 1)
                   (simpsonLoop (Z.to_nat n') f a h (float_ofZ 4) 1 n'
                      (f a + f b)) = nan).
  { destruct Hin as [ Ha | [ Hb | Hin ] ].
    - rewrite Ha, Hx, nan_add_l, !simpsonLoop_from_nan. reflexivity.
    - rewrite Hb, Hx, nan_add_r, !simpsonLoop_from_nan. reflexivity.
    - apply in_app_or in Hin. destruct Hin as [ H1 | H2 ].
      + rewrite (@simpsonLoop_nan_sample f a h (float_ofZ 4) n' x Hx _ _ _ H1).
        apply simpsonLoop_from_nan.
      + apply (@simpsonLoop_nan_sample f a h (float_ofZ 2) (n' - 1) x Hx _ _ _ H2). }
  rewrite Hsum. apply nan_mul_r.
Qed.

Section WithLibm.

Context {L : Libm}.

(** X12: in binary64, when the product of the two functions is NaN at one of
    the abscissas and neither norm is zero, [calculateAngle] (without
    normalisation) answers the angle NaN with the expressions unchanged, not
    [null]. *)
Theorem nan_sample_leaks (f1 f2 : MathNode float) (interval : float * float)
    (ensureAcute : bool) (x : float) :
  libm_acos nan = nan ->
  In x (simpsonAbscissas (fst interval) (snd interval) 200) ->
  evaluate (product f1 f2) x = nan ->
  PrimFloat.eqb (norm f1 interval) 0 || PrimFloat.eqb (norm f2 interval) 0
  = false ->
  calculateAngle f1 f2 false interval ensureAcute
  = mkAngleResult (Some nan) f1 f2.
Proof.
  intros Hacos Hin Hx Hzero.
  assert (Hip : innerProductOf f1 f2 interval = nan).
  { unfold innerProductOf, integrate.
    apply (@simpsonsRule_nan_sample _ _ _ _ x Hin Hx). }
  unfold calculateAngle, angleOf. cbv zeta. rewrite Hip.
  cbn [nlt neq ndiv nmul nopp ofZ float_Number Math_max Math_min
       Math_acos Math_PI float_MathLib].
  change (PrimFloat.ltb nan (float_ofZ 0)) with false.
  rewrite andb_false_r.
  change (float_ofZ 0) with 0. rewrite Hzero.
  rewrite nan_div_l.
  change (float_max (- float_ofZ 1) (float_min (float_ofZ 1) nan)) with nan.
  rewrite Hacos, nan_mul_l. reflexivity.
Qed.

End WithLibm.

(** On [[-1, 1]] the point [0] is one of the abscissas. *)
Lemma zero_is_abscissa : In 0 (simpsonAbscissas (-1) 1 200).
Proof.
  change 0 with (nth 151 (simpsonAbscissas (-1) 1 200) 0).
  apply nth_In. vm_compute. lia.
Qed.

Lemma simpsonsRule_nan_sample_witness :
  simpsonsRule (fun x => 0 / x) (-1) 1 200 = nan.
Proof.
  apply (@simpsonsRule_nan_sample (fun x => 0 / x) (-1) 1 200 0).
  - exact zero_is_abscissa.
  - reflexivity.
Defined.

Section WithSpecLibm.

#[local] Existing Instance specLibm.

Lemma nan_sample_leaks_witness :
  calculateAngle Runs.x_ Runs.inv_x false Runs.easyInterval true
  = mkAngleResult (Some nan) Runs.x_ Runs.inv_x.
Proof.
  apply (@nan_sample_leaks specLibm Runs.x_ Runs.inv_x Runs.easyInterval true 0).
  - reflexivity.
  - exact zero_is_abscissa.
  - reflexivity.
  - vm_compute. reflexivity.
Defined.

End WithSpecLibm.

End Binary64NaN.

(** ** The data of the plot *)

Section Plot.

Context {N : Type} {num : Number N} {lib : MathLib N}.
Local Open Scope num_scope.

Definition PLOT_SAMPLES : nat := 200.

(** The abscissas of the plot of [startNewRound]. *)
Definition x_values (interval : N * N) : list N :=
  map (fun i : nat =>
         let t := ofZ (Z.of_nat i) / ofZ (Z.of_nat PLOT_SAMPLES - 1) in
         fst interval + t * (snd interval - fst interval))
      (seq 0 PLOT_SAMPLES).

(** [y => isFinite(y) ? y : null]. *)
Definition safeValue (y : N) : option N := if isFinite y then Some y else None.

Record PlotData : Type := mkPlotData {
  plot_x_values : list N;
  y1_values : list (option N);
  y2_values : list (option N)
}.

(** [newPlotData] of [startNewRound], from the final expressions. *)
Definition newPlotData (f1_final f2_final : MathNode N) (interval : N * N)
    : PlotData :=
  let xs := x_values interval in
  let y1_raw := map (evaluate f1_final) xs in
  let y2_raw := map (evaluate f2_final) xs in
  mkPlotData xs (map safeValue y1_raw) (map safeValue y2_raw).

End Plot.

(** ** The abscissas in binary64 *)

Module Binary64Grids.

Import Binary64 SimpsonConstants.
Local Open Scope float_scope.

(** Each element is below the next. *)
Fixpoint increasing (l : list float) : bool :=
  match l with
  | [] => true
  | x :: l' =>
      match l' with
      | [] => true
      | y :: _ => PrimFloat.ltb x y && increasing l'
      end
  end.

Definition within (a b x : float) : bool :=
  PrimFloat.leb a x && PrimFloat.leb x b.

(** What is checked of a grid of abscissas over [[a, b]]: it starts at [a],
    ends at [b] and increases. *)
Definition gridFrom (a b : float) (xs : list float) : bool :=
  match xs with
  | [] => false
  | x :: _ => PrimFloat.eqb x a && PrimFloat.eqb (last xs x) b && increasing xs
  end.

Section WithLibm.

Context {L : Libm}.

(** The argument of the generator's [asin] primitive. *)
Definition asinArgument (intervalLimit : float) : MathNode float :=
  OperatorNode Divide SymbolX (ConstantNode intervalLimit).

Definition inAsinDomain (intervalLimit x : float) : bool :=
  within (-1) 1 (evaluate (asinArgument intervalLimit) x).

Definition gridsChecked (iv : Z * Z) : bool :=
  let a := float_ofZ (fst iv) in
  let b := float_ofZ (snd iv) in
  let limit := intervalLimitOf (a, b) in
  gridFrom a b (x_values (a, b))
  && gridFrom a b (x_vals_for_scaling (a, b))
  && forallb (within a b) (simpsonAbscissas a b 200)
  && forallb (inAsinDomain limit)
       (x_values (a, b) ++ x_vals_for_scaling (a, b) ++ simpsonAbscissas a b 200).

Lemma gridsChecked_round (ia ib : Z) :
  roundInterval ia ib -> gridsChecked (ia, ib) = true.
Proof.
  intros H.
  assert (Hc : (fun iv => Z.leb (snd iv) (fst iv) || gridsChecked iv) (ia, ib)
               = true).
  { apply roundInterval_cases in H. revert H.
    generalize (ia, ib). apply forallb_forall. vm_compute. reflexivity. }
  cbn [fst snd] in Hc. unfold roundInterval in H.
  destruct (Z.leb_spec ib ia) as [ Hle | _ ]; [ lia | exact Hc ].
Qed.

(** X14: in binary64 and on every interval of a round, the 200 abscissas of
    the plot and the 100 of the scaling pass start at [a], end at [b] and
    increase strictly, and every abscissa of Simpson's rule lies in
    [[a, b]]. *)
Theorem grids_binary64 (ia ib : Z) :
  roundInterval ia ib ->
  let a := float_ofZ ia in
  let b := float_ofZ ib in
  gridFrom a b (x_values (a, b)) = true
  /\ gridFrom a b (x_vals_for_scaling (a, b)) = true
  /\ forallb (within a b) (simpsonAbscissas a b 200) = true.
Proof.
  intros H. pose proof (gridsChecked_round H) as Hc. cbv zeta.
  unfold gridsChecked in Hc. cbn [fst snd] in Hc.
  apply andb_prop in Hc. destruct Hc as [ Hc _ ].
  apply andb_prop in Hc. destruct Hc as [ Hc H3 ].
  apply andb_prop in Hc. destruct Hc as [ H1 H2 ].
  repeat split; assumption.
Qed.

(** X15: in binary64 and on every interval of a round, the argument
    [x / intervalLimit] of the generator's [asin] primitive is in [[-1, 1]] at
    every abscissa the program evaluates a function at: those of Simpson's
    rule, of the scaling pass and of the plot. *)
Theorem asin_domain_binary64 (ia ib : Z) :
  roundInterval ia ib ->
  let a := float_ofZ ia in
  let b := float_ofZ ib in
  let limit := intervalLimitOf (a, b) in
  nth_error (baseFunctions limit) 12 = Some (FunctionNode Fasin (asinArgument limit))
  /\ forallb (inAsinDomain limit)
       (x_values (a, b) ++ x_vals_for_scaling (a, b) ++ simpsonAbscissas a b 200)
     = true.
Proof.
  intros H. pose proof (gridsChecked_round H) as Hc. cbv zeta.
  unfold gridsChecked in Hc. cbn [fst snd] in Hc.
  apply andb_prop in Hc. destruct Hc as [ _ H4 ].
  split; [ reflexivity | exact H4 ].
Qed.

End WithLibm.

Section WithSpecLibm.

#[local] Existing Instance specLibm.

Lemma grids_binary64_witness :
  let a := float_ofZ (-1) in
  let b := float_ofZ 1 in
  gridFrom a b (x_values (a, b)) = true
  /\ gridFrom a b (x_vals_for_scaling (a, b)) = true
  /\ forallb (within a b) (simpsonAbscissas a b 200) = true.
Proof.
  apply (@grids_binary64 specLibm (-1) 1). unfold roundInterval. lia.
Defined.

Lemma asin_domain_binary64_witness :
  let a := float_ofZ (-5) in
  let b := float_ofZ 2 in
  let limit := intervalLimitOf (a, b) in
  nth_error (baseFunctions limit) 12 = Some (FunctionNode Fasin (asinArgument limit))
  /\ forallb (inAsinDomain limit)
       (x_values (a, b) ++ x_vals_for_scaling (a, b) ++ simpsonAbscissas a b 200)
     = true.
Proof.
  apply (@asin_domain_binary64 specLibm (-5) 2). unfold roundInterval. lia.
Defined.

End WithSpecLibm.

End Binary64Grids.

(** ** The statistics of a session *)

(** An entry of the history ([RoundData]), as [submitGuess] writes it. *)
Record RoundData (N : Type) : Type := mkRoundData {
  rd_guess : N;
  rd_actual : N;
  rd_diff : N;
  rd_score : N
}.

Record SessionStats (N : Type) : Type := mkSessionStats {
  avgScore : N;
  avgDiff : N;
  avgDiffLast10 : N;
  medianDiff : N
}.

Section Stats.

Context {N : Type} {num : Number N}.
Local Open Scope num_scope.

(** [array.sort((a, b) => a - b)]: the element goes before the first one
    the comparator puts it before.  The language leaves the algorithm to the
    engine; on numbers that are not NaN every algorithm gives the same
    list.  With a NaN among them the comparator answers NaN, the order is
    the engine's own, and nothing below is about that case. *)
Fixpoint insertSorted (x : N) (l : list N) : list N :=
  match l with
  | [] => [x]
  | y :: l' => if (x - y) <? ofZ 0 then x :: y :: l' else y :: insertSorted x l'
  end.

Definition sortAscending (l : list N) : list N := fold_right insertSorted [] l.

(** [history.reduce((acc, h) => acc + field(h), 0)]. *)
Definition sumOf (field : RoundData N -> N) (history : list (RoundData N)) : N :=
  fold_left (fun acc h => acc + field h) history (ofZ 0).

(** [array.slice(-10)]. *)
Definition lastTen {A : Type} (l : list A) : list A :=
  skipn (List.length l - 10) l.

Definition numberOf {A : Type} (l : list A) : N := ofZ (Z.of_nat (List.length l)).

(** The [useMemo] of [Stats]. *)
Definition stats (history : list (RoundData N)) : SessionStats N :=
  let totalRounds := List.length history in
  match totalRounds with
  | O => mkSessionStats (ofZ 0) (ofZ 0) (ofZ 0) (ofZ 0)
  | S _ =>
      let avgScore := sumOf (@rd_score N) history / numberOf history in
      let avgDiff := sumOf (@rd_diff N) history / numberOf history in
      let last10History := lastTen history in
      let avgDiffLast10 :=
        sumOf (@rd_diff N) last10History / numberOf last10History in
      let sortedDiffs := sortAscending (map (@rd_diff N) history) in
      let mid := Nat.div totalRounds 2 in
      let medianDiff :=
        if Nat.eqb (Nat.modulo totalRounds 2) 0
        then (nth (mid - 1) sortedDiffs (ofZ 0) + nth mid sortedDiffs (ofZ 0))
             / ofZ 2
        else nth mid sortedDiffs (ofZ 0) in
      mkSessionStats avgScore avgDiff avgDiffLast10 medianDiff
  end.

Lemma lastTen_short {A : Type} (l : list A) :
  (List.length l <= 10)%nat -> lastTen l = l.
Proof.
  intros H. unfold lastTen.
  replace (List.length l - 10)%nat with 0%nat by lia. reflexivity.
Qed.

Lemma lastTen_length {A : Type} (l : list A) :
  List.length (lastTen l) = Nat.min 10 (List.length l).
Proof. unfold lastTen. rewrite length_skipn. lia. Qed.

(** X16: with no round played the four statistics are 0, and with at most
    ten rounds the average difference of the last ten is the average
    difference itself; the last ten are never more than ten. *)
Theorem stats_short_history (history : list (RoundData N)) :
  (history = [] ->
     stats history = mkSessionStats (ofZ 0) (ofZ 0) (ofZ 0) (ofZ 0))
  /\ ((List.length history <= 10)%nat ->
      avgDiffLast10 (stats history) = avgDiff (stats history))
  /\ List.length (lastTen history) = Nat.min 10 (List.length history).
Proof.
  split; [ intros ->; reflexivity | ]. split; [ | apply lastTen_length ].
  intros H. unfold stats. destruct (List.length history) eqn:Hlen.
  - reflexivity.
  - cbn [avgDiffLast10 avgDiff]. rewrite lastTen_short by lia. reflexivity.
Qed.

End Stats.

From Stdlib Require Import Permutation.
From Stdlib Require Sorted.

Module ExactStats.

Import Exact ExactAngle.
Local Open Scope R_scope.

Lemma insertSorted_perm (x : R) (l : list R) :
  Permutation (insertSorted x l) (x :: l).
Proof.
  induction l as [ | y l IH ]; cbn [insertSorted].
  - apply Permutation_refl.
  - destruct (_ <? _)%num.
    + apply Permutation_refl.
    + apply perm_trans with (y :: x :: l); [ | apply perm_swap ].
      apply perm_skip. exact IH.
Qed.

Lemma sortAscending_perm (l : list R) : Permutation (sortAscending l) l.
Proof.
  induction l as [ | x l IH ]; cbn [sortAscending fold_right].
  - apply perm_nil.
  - apply perm_trans with (x :: sortAscending l).
    + apply insertSorted_perm.
    + apply perm_skip. exact IH.
Qed.

Lemma sumOf_from (field : RoundData R -> R) (history : list (RoundData R)) :
  forall acc : R,
    fold_left (fun a h => (a + field h)%num) history acc
    = acc + sumOf field history.
Proof.
  unfold sumOf. induction history as [ | h history IH ]; intros acc;
    cbn [fold_left nadd ofZ R_Number IZR] in *.
  - lra.
  - rewrite (IH (acc + field h)), (IH (0 + field h)). lra.
Qed.

Lemma sumOf_cons (field : RoundData R -> R) h (history : list (RoundData R)) :
  sumOf field (h :: history) = field h + sumOf field history.
Proof.
  unfold sumOf at 1. cbn [fold_left nadd ofZ R_Number IZR].
  rewrite sumOf_from. lra.
Qed.

Lemma sumOf_nil (field : RoundData R -> R) : sumOf field [] = 0.
Proof. reflexivity. Qed.

Lemma numberOf_cons {A : Type} (a : A) (l : list A) :
  @numberOf R _ A (a :: l) = 1 + @numberOf R _ A l.
Proof.
  unfold numberOf. cbn [ofZ R_Number List.length].
  rewrite Nat2Z.inj_succ, succ_IZR. lra.
Qed.

Lemma numberOf_nonneg {A : Type} (l : list A) : 0 <= @numberOf R _ A l.
Proof.
  unfold numberOf. cbn [ofZ R_Number]. apply IZR_le. lia.
Qed.

Lemma sumOf_bounds (field : RoundData R -> R) (lo hi : R)
      (history : list (RoundData R)) :
  Forall (fun h => lo <= field h <= hi) history ->
  numberOf history * lo <= sumOf field history <= numberOf history * hi.
Proof.
  induction 1 as [ | h history Hh _ IH ].
  - rewrite sumOf_nil. unfold numberOf. cbn [ofZ R_Number List.length Z.of_nat].
    lra.
  - rewrite sumOf_cons, numberOf_cons. lra.
Qed.

Lemma average_bounds (field : RoundData R -> R) (lo hi : R)
      (history : list (RoundData R)) :
  history <> [] ->
  Forall (fun h => lo <= field h <= hi) history ->
  lo <= sumOf field history / numberOf history <= hi.
Proof.
  intros Hne Hall.
  assert (Hn : 0 < numberOf history).
  { destruct history as [ | h history ]; [ contradiction | ].
    rewrite numberOf_cons. pose proof (numberOf_nonneg history). lra. }
  pose proof (@sumOf_bounds field lo hi history Hall) as [ Hlo Hhi ].
  split.
  - apply Rmult_le_reg_r with (numberOf history); [ exact Hn | ].
    replace (sumOf field history / numberOf history * numberOf history)
      with (sumOf field history) by (field; lra).
    lra.
  - apply Rmult_le_reg_r with (numberOf history); [ exact Hn | ].
    replace (sumOf field history / numberOf history * numberOf history)
      with (sumOf field history) by (field; lra).
    lra.
Qed.

Lemma lastTen_Forall {A : Type} (P : A -> Prop) (l : list A) :
  Forall P l -> Forall P (lastTen l).
Proof.
  intros H. unfold lastTen.
  rewrite <- (firstn_skipn (List.length l - 10) l) in H at 1.
  apply Forall_app in H. apply H.
Qed.

Lemma lastTen_nonempty {A : Type} (l : list A) : l <> [] -> lastTen l <> [].
Proof.
  intros Hne Heq. pose proof (lastTen_length l) as Hlen.
  rewrite Heq in Hlen. destruct l; [ contradiction | ].
  cbn [List.length] in Hlen. lia.
Qed.

Lemma sorted_nth_bounds (lo hi : R) (history : list (RoundData R)) (i : nat) :
  Forall (fun h => lo <= rd_diff h <= hi) history ->
  (i < List.length history)%nat ->
  lo <= nth i (sortAscending (map (@rd_diff R) history)) 0 <= hi.
Proof.
  intros Hall Hi.
  pose proof (sortAscending_perm (map (@rd_diff R) history)) as Hp.
  assert (Hlen : List.length (sortAscending (map (@rd_diff R) history))
                 = List.length history)
    by (rewrite (Permutation_length Hp); apply length_map).
  assert (Hin : In (nth i (sortAscending (map (@rd_diff R) history)) 0)
                   (map (@rd_diff R) history)).
  { apply (Permutation_in _ Hp). apply nth_In. lia. }
  apply in_map_iff in Hin. destruct Hin as [ h [ Hh Hin ] ].
  rewrite Forall_forall in Hall. rewrite <- Hh. apply Hall. exact Hin.
Qed.

Lemma averages_within_bounds (history : list (RoundData R)) (lo hi slo shi : R) :
  history <> [] ->
  Forall (fun h => lo <= rd_diff h <= hi) history ->
  Forall (fun h => slo <= rd_score h <= shi) history ->
  lo <= avgDiff (stats history) <= hi
  /\ lo <= avgDiffLast10 (stats history) <= hi
  /\ slo <= avgScore (stats history) <= shi.
Proof.
  intros Hne Hd Hs. unfold stats.
  destruct (List.length history) as [ | n ] eqn:Hlen;
    [ destruct history; [ contradiction | discriminate ] | ].
  cbn [avgDiff avgDiffLast10 avgScore].
  split; [ apply average_bounds; assumption | ].
  split; [ | apply average_bounds; assumption ].
  apply average_bounds;
    [ apply lastTen_nonempty; exact Hne | apply lastTen_Forall; exact Hd ].
Qed.

Lemma median_within_bounds (history : list (RoundData R)) (lo hi : R) :
  history <> [] ->
  Forall (fun h => lo <= rd_diff h <= hi) history ->
  lo <= medianDiff (stats history) <= hi.
Proof.
  intros Hne Hd. unfold stats.
  destruct (List.length history) as [ | n ] eqn:Hlen;
    [ destruct history; [ contradiction | discriminate ] | ].
  cbn [medianDiff].
  assert (Hmid : (Nat.div (S n) 2 < List.length history)%nat).
  { rewrite Hlen. apply Nat.div_lt; lia. }
  pose proof (@sorted_nth_bounds lo hi history _ Hd Hmid) as Hb.
  destruct (Nat.eqb (Nat.modulo (S n) 2) 0) eqn:Heven; [ | exact Hb ].
  assert (Hmid' : (Nat.div (S n) 2 - 1 < List.length history)%nat) by lia.
  pose proof (@sorted_nth_bounds lo hi history _ Hd Hmid') as Hb'.
  cbn [nadd ndiv ofZ R_Number]. lra.
Qed.

End ExactStats.

(** ** The state of the game ([App]) *)

(** [GameState]. *)
Inductive GameState : Set := loading | playing | results.

(** The three settings the round depends on; the other four ([isDarkMode],
    [lineThickness], [func1Color], [func2Color]) only change how the page
    looks and are kept as one value. *)
Record GameSettings : Set := mkGameSettings {
  s_isUnitaryMode : bool;
  s_acuteAnglesOnly : bool;
  s_isEasyInterval : bool
}.

(** The state of [App] that the game reads and writes.  [st_roundData] is
    [roundData.angle] and [st_result] is [(actual_angle, score)]: the two
    formula strings beside them are only displayed.  The text of the guess is
    kept by the number it reads as, [None] for the empty text. *)
Record AppState (N Cosmetic : Type) : Type := mkAppState {
  st_game : GameSettings;
  st_cosmetic : Cosmetic;
  st_gameState : GameState;
  st_roundData : option N;
  st_guess : option N;
  st_result : option (N * N);
  st_totalScore : N;
  st_roundNumber : N;
  st_history : list (RoundData N)
}.

(** What happens to [App]: [startNewRound] up to its timer, the callback of
    the timer with the angle it computed, [handleGuessChange],
    [submitGuess], and [onSettingsChange] followed by the effect on the
    three game settings. *)
Inductive Event (N Cosmetic : Type) : Type :=
  | RoundRequested : Event N Cosmetic
  | RoundReady : bool -> N -> Event N Cosmetic
  | GuessChanged : option N -> Event N Cosmetic
  | GuessSubmitted : Event N Cosmetic
  | SettingsChanged : GameSettings -> Cosmetic -> Event N Cosmetic.

Arguments RoundRequested {N Cosmetic}.
Arguments GuessSubmitted {N Cosmetic}.
Arguments GuessChanged {N Cosmetic} _.
Arguments RoundReady {N Cosmetic} _ _.
Arguments SettingsChanged {N Cosmetic} _ _.

Definition GameSettings_eqb (a b : GameSettings) : bool :=
  Bool.eqb (s_isUnitaryMode a) (s_isUnitaryMode b)
  && Bool.eqb (s_acuteAnglesOnly a) (s_acuteAnglesOnly b)
  && Bool.eqb (s_isEasyInterval a) (s_isEasyInterval b).

Section Session.

Context {N : Type} {num : Number N} {lib : MathLib N} {Cosmetic : Type}.
Local Open Scope num_scope.

Local Abbreviation State := (AppState N Cosmetic).

(** [isNaN(v)] and [a <= b] on numbers. *)
Definition isNaN (v : N) : bool := negb (v === v).
Definition nle (a b : N) : bool := (a <? b) || (a === b).

Definition initialState (game : GameSettings) (cosmetic : Cosmetic) : State :=
  mkAppState game cosmetic loading None None None (ofZ 0) (ofZ 0) [].

(** [startNewRound] before the timer: [setGameState('loading')],
    [setResult(null)], [setGuess('')]. *)
Definition requestRound (s : State) : State :=
  mkAppState (st_game s) (st_cosmetic s) loading (st_roundData s) None None
             (st_totalScore s) (st_roundNumber s) (st_history s).

(** The callback of the timer, once the angle is there: [setRoundData],
    [setRoundNumber], [setGameState('playing')]. *)
Definition roundReady (isFirstRound : bool) (angle : N) (s : State) : State :=
  mkAppState (st_game s) (st_cosmetic s) playing (Some angle) (st_guess s)
             (st_result s) (st_totalScore s)
             (if isFirstRound then ofZ 1 else st_roundNumber s + ofZ 1)
             (st_history s).

Definition setGuess (g : option N) (s : State) : State :=
  mkAppState (st_game s) (st_cosmetic s) (st_gameState s) (st_roundData s) g
             (st_result s) (st_totalScore s) (st_roundNumber s) (st_history s).

(** [handleGuessChange]. *)
Definition handleGuessChange (value : option N) (s : State) : State :=
  match value with
  | None => setGuess None s
  | Some numValue =>
      let maxValue := if s_acuteAnglesOnly (st_game s) then ofZ 90 else ofZ 180 in
      if negb (isNaN numValue) && nle (ofZ 0) numValue && nle numValue maxValue
      then setGuess value s
      else s
  end.

(** [submitGuess] on the state. *)
Definition submitGuessOn (s : State) : State :=
  match st_roundData s, st_guess s with
  | Some actual_angle, Some g =>
      let (diff, score) := submitGuess actual_angle g in
      mkAppState (st_game s) (st_cosmetic s) results (st_roundData s)
                 (st_guess s) (Some (actual_angle, score))
                 (st_totalScore s + score) (st_roundNumber s)
                 (st_history s ++ [mkRoundData g actual_angle diff score])
  | _, _ => s
  end.

(** [onSettingsChange]; when one of the three game settings differs, the
    effect sets the total to 0, empties the history and asks for a first
    round. *)
Definition settingsChanged (game : GameSettings) (cosmetic : Cosmetic)
    (s : State) : State :=
  if GameSettings_eqb (st_game s) game
  then mkAppState game cosmetic (st_gameState s) (st_roundData s) (st_guess s)
                  (st_result s) (st_totalScore s) (st_roundNumber s)
                  (st_history s)
  else requestRound
         (mkAppState game cosmetic (st_gameState s) (st_roundData s)
                     (st_guess s) (st_result s) (ofZ 0) (st_roundNumber s) []).

Definition handle (s : State) (e : Event N Cosmetic) : State :=
  match e with
  | RoundRequested => requestRound s
  | RoundReady isFirstRound angle => roundReady isFirstRound angle s
  | GuessChanged value => handleGuessChange value s
  | GuessSubmitted => submitGuessOn s
  | SettingsChanged game cosmetic => settingsChanged game cosmetic s
  end.

Definition run (events : list (Event N Cosmetic)) (s : State) : State :=
  fold_left handle events s.

(** What every entry of the history records. *)
Definition recorded (h : RoundData N) : Prop :=
  (rd_diff h, rd_score h) = submitGuess (rd_actual h) (rd_guess h).

Definition consistent (s : State) : Prop :=
  st_totalScore s = sumOf (@rd_score N) (st_history s)
  /\ Forall recorded (st_history s).

Lemma sumOf_snoc (field : RoundData N -> N) (history : list (RoundData N)) h :
  sumOf field (history ++ [h]) = sumOf field history + field h.
Proof. unfold sumOf. rewrite fold_left_app. reflexivity. Qed.

Lemma handle_consistent (s : State) (e : Event N Cosmetic) :
  consistent s -> consistent (handle s e).
Proof.
  intros [ Hsum Hall ]. destruct e as [ | b a | [ v | ] | | game cosmetic ];
    cbn [handle].
  - split; assumption.
  - split; assumption.
  - unfold handleGuessChange. destruct (_ && _); split; assumption.
  - split; assumption.
  - unfold submitGuessOn.
    destruct (st_roundData s) as [ a | ]; [ | split; assumption ].
    destruct (st_guess s) as [ g | ]; [ | split; assumption ].
    destruct (submitGuess a g) as [ diff score ] eqn:Hsubmit.
    split; cbn [st_totalScore st_history].
    + rewrite sumOf_snoc, Hsum. reflexivity.
    + apply Forall_app. split; [ exact Hall | ].
      constructor; [ | constructor ].
      unfold recorded. cbn [rd_diff rd_score rd_actual rd_guess].
      symmetry. exact Hsubmit.
  - unfold settingsChanged. destruct (GameSettings_eqb _ _).
    + split; assumption.
    + split; [ reflexivity | constructor ].
Qed.

Lemma run_consistent (events : list (Event N Cosmetic)) :
  forall s : State, consistent s -> consistent (run events s).
Proof.
  induction events as [ | e events IH ]; intros s Hs; [ exact Hs | ].
  cbn [run fold_left]. apply IH. apply handle_consistent. exact Hs.
Qed.

(** X20: whatever happens in a session, the total score shown is the sum
    of the scores in the history, added in the order of the rounds, so the
    average score of the statistics is the total divided by the number of
    rounds; and every entry of the history holds the difference and the
    score of its own guess and angle. *)
Theorem total_is_sum_of_history (events : list (Event N Cosmetic))
    (game : GameSettings) (cosmetic : Cosmetic) :
  let s := run events (initialState game cosmetic) in
  st_totalScore s = sumOf (@rd_score N) (st_history s)
  /\ Forall recorded (st_history s)
  /\ (st_history s <> [] ->
      avgScore (stats (st_history s))
      = st_totalScore s / numberOf (st_history s)).
Proof.
  intros s.
  assert (Hs : consistent s).
  { apply run_consistent. split; [ reflexivity | constructor ]. }
  destruct Hs as [ Hsum Hall ].
  split; [ exact Hsum | ]. split; [ exact Hall | ].
  intros Hne. rewrite Hsum. unfold stats.
  destruct (st_history s); [ contradiction | reflexivity ].
Qed.

End Session.

Module ExactSession.

Import Exact ExactAngle ExactScore ExactStats.
Local Open Scope R_scope.

Lemma nle_le (a b : R) : nle a b = true -> a <= b.
Proof.
  unfold nle. cbn [nlt neq R_Number]. unfold R_eqb.
  destruct (R_ltb_spec a b) as [ Hlt | Hge ]; [ lra | ].
  destruct (Req_dec_T a b); [ lra | discriminate ].
Qed.

(** The angles the timer delivers are between 0 and 180 degrees. *)
Definition angleWithin {Cosmetic : Type} (e : Event R Cosmetic) : Prop :=
  match e with
  | RoundReady _ a => 0 <= a <= 180
  | _ => True
  end.

Definition withinRange (h : RoundData R) : Prop :=
  0 <= rd_guess h <= 180 /\ 0 <= rd_actual h <= 180
  /\ 0 <= rd_diff h <= 180 /\ 0 <= rd_score h <= 100.

Definition bounded {Cosmetic : Type} (s : AppState R Cosmetic) : Prop :=
  (forall a, st_roundData s = Some a -> 0 <= a <= 180)
  /\ (forall g, st_guess s = Some g -> 0 <= g <= 180)
  /\ Forall withinRange (st_history s).

Lemma submitGuess_withinRange (a g : R) :
  0 <= a <= 180 -> 0 <= g <= 180 ->
  0 <= fst (submitGuess a g) <= 180 /\ 0 <= snd (submitGuess a g) <= 100.
Proof.
  intros Ha Hg.
  assert (Hd : fst (submitGuess a g) = Rabs (a - g)) by reflexivity.
  assert (Hdiff : 0 <= Rabs (a - g) <= 180)
    by (unfold Rabs; destruct (Rcase_abs _); lra).
  split; [ rewrite Hd; exact Hdiff | ].
  fold (scoreOf a g). rewrite scoreOf_formula.
  set (m := Rmax 0 (1 - Rabs (a - g) / 180)).
  assert (Hm : 0 <= m <= 1).
  { unfold m. split; [ apply Rmax_l | apply Rmax_lub; lra ]. }
  assert (H2 : 0 <= m * m <= 1) by nra.
  assert (H3 : 0 <= m * (m * m) <= 1) by nra.
  simpl. lra.
Qed.

Lemma handle_bounded {Cosmetic : Type} (s : AppState R Cosmetic)
      (e : Event R Cosmetic) :
  angleWithin e -> bounded s -> bounded (handle s e).
Proof.
  intros He Hs. pose proof Hs as (Hround & Hguess & Hall).
  destruct e as [ | b a | [ v | ] | | game cosmetic ]; cbn [handle].
  - split; [ exact Hround | ]. split; [ | exact Hall ].
    cbn [requestRound st_guess]. discriminate.
  - cbn [angleWithin] in He. split; [ | split; assumption ].
    cbn [roundReady st_roundData]. intros a' [= <-]. exact He.
  - unfold handleGuessChange, isNaN.
    destruct (nle (ofZ 0) v) eqn:H0; rewrite ?andb_false_r; [ | exact Hs ].
    destruct (nle v _) eqn:Hmax; rewrite ?andb_false_r; [ | exact Hs ].
    destruct (negb _); cbn [andb]; [ | exact Hs ].
    split; [ exact Hround | ]. split; [ | exact Hall ].
    cbn [setGuess st_guess]. intros g [= <-].
    apply nle_le in H0, Hmax. cbn [ofZ R_Number] in H0, Hmax.
    destruct (s_acuteAnglesOnly _); lra.
  - split; [ exact Hround | ]. split; [ | exact Hall ].
    cbn [handleGuessChange setGuess st_guess]. discriminate.
  - unfold submitGuessOn.
    destruct (st_roundData s) as [ a | ] eqn:Ha; [ | exact Hs ].
    destruct (st_guess s) as [ g | ] eqn:Hg; [ | exact Hs ].
    pose proof (@submitGuess_withinRange a g (Hround a eq_refl) (Hguess g eq_refl))
      as Hrange.
    destruct (submitGuess a g) as [ diff score ]. cbn [fst snd] in Hrange.
    split; [ exact Hround | ]. split; [ exact Hguess | ].
    cbn [st_history]. apply Forall_app. split; [ exact Hall | ].
    constructor; [ | constructor ].
    unfold withinRange. cbn [rd_guess rd_actual rd_diff rd_score].
    pose proof (Hround a eq_refl). pose proof (Hguess g eq_refl). tauto.
  - unfold settingsChanged. destruct (GameSettings_eqb _ _).
    + exact Hs.
    + split; [ exact Hround | ]. split; [ | constructor ].
      cbn [requestRound st_guess]. discriminate.
Qed.

Lemma run_bounded {Cosmetic : Type} (events : list (Event R Cosmetic)) :
  forall s : AppState R Cosmetic,
    Forall angleWithin events -> bounded s -> bounded (run events s).
Proof.
  induction events as [ | e events IH ]; intros s He Hs; [ exact Hs | ].
  inversion He as [ | e0 events0 He1 He2 ]; subst.
  cbn [run fold_left]. apply IH; [ exact He2 | ].
  apply handle_bounded; assumption.
Qed.

(** X21: in a session whose rounds have angles between 0 and 180
    degrees, every entry of the history has its guess, its angle and its
    difference between 0 and 180 and its score between 0 and 100; the total
    is at most 100 per recorded round, and the statistics stay in the same
    ranges. *)
Theorem session_within_range {Cosmetic : Type}
    (events : list (Event R Cosmetic)) (game : GameSettings)
    (cosmetic : Cosmetic) :
  Forall angleWithin events ->
  let s := run events (initialState game cosmetic) in
  Forall withinRange (st_history s)
  /\ 0 <= st_totalScore s <= 100 * numberOf (st_history s)
  /\ 0 <= avgScore (stats (st_history s)) <= 100
  /\ 0 <= avgDiff (stats (st_history s)) <= 180
  /\ 0 <= avgDiffLast10 (stats (st_history s)) <= 180
  /\ 0 <= medianDiff (stats (st_history s)) <= 180.
Proof.
  intros He s.
  assert (Hb : bounded s).
  { apply run_bounded; [ exact He | ].
    split; [ discriminate | ]. split; [ discriminate | constructor ]. }
  assert (Hc : consistent s).
  { apply run_consistent. split; [ reflexivity | constructor ]. }
  destruct Hb as (_ & _ & Hall). destruct Hc as [ Hsum _ ].
  assert (Hd : Forall (fun h => 0 <= rd_diff h <= 180) (st_history s))
    by (apply Forall_impl with (P := withinRange);
        [ unfold withinRange; tauto | exact Hall ]).
  assert (Hs : Forall (fun h => 0 <= rd_score h <= 100) (st_history s))
    by (apply Forall_impl with (P := withinRange);
        [ unfold withinRange; tauto | exact Hall ]).
  split; [ exact Hall | ]. split.
  { rewrite Hsum.
    pose proof (@sumOf_bounds (@rd_score R) 0 100 (st_history s) Hs). lra. }
  destruct (st_history s) as [ | h history ] eqn:Hh.
  { cbn [stats List.length avgScore avgDiff avgDiffLast10 medianDiff ofZ
         R_Number]. lra. }
  assert (Hne : h :: history <> []) by discriminate.
  pose proof (@averages_within_bounds (h :: history) 0 180 0 100 Hne Hd Hs).
  pose proof (@median_within_bounds (h :: history) 0 180 Hne Hd). tauto.
Qed.

Definition sampleSession : list (Event R unit) :=
  [RoundRequested; RoundReady true 60; GuessChanged (Some 45); GuessSubmitted].

Lemma session_within_range_witness :
  Forall angleWithin sampleSession
  /\ 0 <= st_totalScore
            (run sampleSession (initialState (mkGameSettings false false true) tt))
     <= 100 * numberOf (st_history
            (run sampleSession (initialState (mkGameSettings false false true) tt))).
Proof.
  assert (H : Forall angleWithin sampleSession).
  { unfold sampleSession. repeat constructor; cbn [angleWithin]; lra. }
  split; [ exact H | ].
  apply (@session_within_range unit sampleSession
           (mkGameSettings false false true) tt H).
Defined.

End ExactSession.

(** ** The animated total ([useCountUp]) *)

Section CountUp.

Context {N : Type} {num : Number N} {lib : MathLib N}.
Local Open Scope num_scope.

(** [easeOutExpo]. *)
Definition easeOutExpo (t : N) : N :=
  if t === ofZ 1 then ofZ 1
  else ofZ 1 - Math_pow (ofZ 2) ((- ofZ 10) * t).


End CountUp.

Module ExactCountUp.

Import Exact ExactAngle.
Local Open Scope R_scope.

Lemma R_pow_real (x y : R) : y <= 0 -> R_pow x y = Rpower x y.
Proof.
  intros Hy. unfold R_pow.
  destruct (Req_dec_T y 2); [ lra | ].
  destruct (Req_dec_T y 3); [ lra | ].
  destruct (Req_dec_T y 4); [ lra | ]. reflexivity.
Qed.


Lemma Rpower_2_minus_10 : Rpower 2 (- 10) = / 1024.
Proof.
  change (Rpower 2 (- 10)) with (Rpower 2 (Ropp 10)).
  rewrite Rpower_Ropp. f_equal.
  replace 10 with (INR 10) by (simpl; lra).
  rewrite Rpower_pow by lra. simpl. lra.
Qed.











End ExactCountUp.

(** ** The generator on draws of [Math.random()] *)

Module ExactGenerator.

Import Exact ExactAngle.
Local Open Scope R_scope.

(** What [Math.random()] returns: a number in [[0, 1)]. *)
Definition unitDraw (u : R) : Prop := 0 <= u < 1.

(** [Math.floor(Math.random() * n)] is one of [0 .. n-1]. *)
Lemma unit_floor (u : R) (n : Z) :
  unitDraw u -> (0 < n)%Z ->
  exists z : Z, (0 <= z < n)%Z /\ Math_floor (u * IZR n) = IZR z.
Proof.
  intros [ Hu0 Hu1 ] Hn. exists (Int_part (u * IZR n)).
  split; [ | reflexivity ].
  destruct (base_Int_part (u * IZR n)) as [ Hle Hgt ].
  assert (Hn' : 0 < IZR n) by (apply IZR_lt; exact Hn).
  assert (Hr : 0 <= u * IZR n < IZR n) by nra.
  split.
  - assert (H : (-1 < Int_part (u * IZR n))%Z) by (apply lt_IZR; lra). lia.
  - apply lt_IZR. lra.
Qed.

(** The factors [createModifiedString] can put in front of a function. *)
Definition factors : list R :=
  [ 1; 1 / 2; 3 / 2; 2; 3; - 1; - (1 / 2); - (3 / 2); - 2; - 3 ].

Definition scaledBy (func m : MathNode R) : Prop :=
  exists k : R, In k factors /\ forall x : R, evaluate m x = k * evaluate func x.

Lemma pick_scalar (z : Z) (t : Tape R) :
  (0 <= z < 4)%Z ->
  exists c : R, pick scalars (IZR z) t = Some (c, t) /\ In c [1 / 2; 3 / 2; 2; 3].
Proof.
  intros Hz.
  assert (Hcases : z = 0%Z \/ z = 1%Z \/ z = 2%Z \/ z = 3%Z) by lia.
  unfold pick, scalars.
  cbn [arrayGet neq ofZ ndiv R_Number Z.add Pos.add Pos.succ].
  destruct Hcases as [ -> | [ -> | [ -> | -> ] ] ];
    repeat first [ rewrite R_eqb_true by lra | rewrite R_eqb_false by lra ];
    eexists; (split; [ reflexivity | cbn [In]; tauto ]).
Qed.

Lemma createModifiedString_unit (func : MathNode R) (us : list R) (t : Tape R) :
  Forall unitDraw us -> (3 <= List.length us)%nat ->
  exists (m : MathNode R) (us' : list R),
    createModifiedString func (map Random us ++ t) = Some (m, map Random us' ++ t)
    /\ Forall unitDraw us'
    /\ (List.length us - 3 <= List.length us')%nat
    /\ scaledBy func m.
Proof.
  intros Hus Hlen.
  destruct us as [ | u1 [ | u2 [ | u3 us ] ] ]; cbn [List.length] in Hlen; try lia.
  inversion Hus as [ | ? ? Hu1 Hus1 ]; subst.
  inversion Hus1 as [ | ? ? Hu2 Hus2 ]; subst.
  inversion Hus2 as [ | ? ? Hu3 Hus3 ]; subst.
  unfold createModifiedString, bind, Math_random.
  cbn [map app nlt ndiv nmul ofZ Math_floor R_Number].
  destruct (R_ltb u1 (33 / 100)).
  - destruct (@unit_floor u2 4 Hu2 ltac:(lia)) as (z & Hz & Hfloor).
    cbn [Math_floor R_Number] in Hfloor. rewrite Hfloor.
    destruct (@pick_scalar z (Random u3 :: map Random us ++ t) Hz)
      as (c & Hpick & Hc).
    rewrite Hpick. cbn [ret].
    destruct (R_ltb u3 (1 / 2)); cbn [ret].
    + eexists. exists us. split; [ reflexivity | ].
      split; [ exact Hus3 | ]. split; [ cbn [List.length]; lia | ].
      exists (- c). split.
      * cbn [In] in Hc. unfold factors. cbn [In].
        destruct Hc as [ <- | [ <- | [ <- | [ <- | [] ] ] ] ]; tauto.
      * intros x. cbn [negated evaluate applyOp nmul nopp R_Number]. ring.
    + eexists. exists us. split; [ reflexivity | ].
      split; [ exact Hus3 | ]. split; [ cbn [List.length]; lia | ].
      exists c. split.
      * cbn [In] in Hc. unfold factors. cbn [In].
        destruct Hc as [ <- | [ <- | [ <- | [ <- | [] ] ] ] ]; tauto.
      * intros x. cbn [evaluate applyOp nmul R_Number]. ring.
  - cbn [ret]. destruct (R_ltb u2 (1 / 2)); cbn [ret].
    + eexists. exists (u3 :: us). split; [ reflexivity | ].
      split; [ exact Hus2 | ]. split; [ cbn [List.length]; lia | ].
      exists (- 1). split; [ unfold factors; cbn [In]; tauto | ].
      intros x. cbn [negated evaluate nopp R_Number]. ring.
    + eexists. exists (u3 :: us). split; [ reflexivity | ].
      split; [ exact Hus2 | ]. split; [ cbn [List.length]; lia | ].
      exists 1. split; [ unfold factors; cbn [In]; tauto | ].
      intros x. ring.
Qed.

(** What [sort] with a random comparator leaves: the elements of the array
    in some order. *)
Definition validOrder {A : Type} (l : list A) (order : list nat) : Prop :=
  Forall (fun i => (i < List.length l)%nat) order.

Lemma shuffled_spec {A : Type} (l : list A) (order : list nat) :
  validOrder l order ->
  exists s : list A,
    flat_map (fun i => match nth_error l i with
                       | Some a => [a]
                       | None => []
                       end) order = s
    /\ List.length s = List.length order
    /\ Forall (fun a => In a l) s.
Proof.
  induction 1 as [ | i order Hi _ IH ].
  - exists []. repeat split. constructor.
  - destruct IH as (s & Hs & Hlen & Hin).
    destruct (nth_error l i) as [ a | ] eqn:Ha;
      [ | apply nth_error_None in Ha; lia ].
    exists (a :: s). cbn [flat_map]. rewrite Ha, Hs.
    split; [ reflexivity | ]. split; [ cbn [List.length]; lia | ].
    constructor; [ apply (nth_error_In _ _ Ha) | exact Hin ].
Qed.

Lemma chosen_firstn {A : Type} (s : list A) (l : list A) (count i : nat)
      (t : Tape R) :
  Forall (fun a => In a l) s -> (count <= List.length s)%nat -> (i < count)%nat ->
  exists b : A, chosen (firstn count s) i t = Some (b, t) /\ In b l.
Proof.
  intros Hin Hcount Hi. unfold chosen.
  destruct (nth_error (firstn count s) i) as [ b | ] eqn:Hb.
  - exists b. split; [ reflexivity | ].
    apply nth_error_In in Hb.
    rewrite Forall_forall in Hin. apply Hin.
    rewrite <- (firstn_skipn count s). apply in_or_app. left. exact Hb.
  - apply nth_error_None in Hb. rewrite length_firstn in Hb. lia.
Qed.

(** The values a generated function takes, by what it was built from. *)
Definition term (k : R) (b : MathNode R) (x : R) : R := k * evaluate b x.

Inductive Shape (L : R) (f : MathNode R) : Prop :=
  | One : forall k1 b1,
      In k1 factors -> In b1 (baseFunctions L) ->
      (forall x, evaluate f x = term k1 b1 x) -> Shape L f
  | Two : forall (op : BinOp) k1 b1 k2 b2,
      In k1 factors -> In b1 (baseFunctions L) ->
      In k2 factors -> In b2 (baseFunctions L) ->
      op = Add \/ op = Multiply ->
      (forall x, evaluate f x = applyOp op (term k1 b1 x) (term k2 b2 x)) ->
      Shape L f
  | Composed : forall k1 b1 k2 b2,
      In k1 factors -> In b1 (baseFunctions L) ->
      In k2 factors -> In b2 (baseFunctions L) ->
      (forall x, evaluate f x = term k1 b1 (term k2 b2 x)) -> Shape L f
  | Three : forall (op1 op2 : BinOp) k1 b1 k2 b2 k3 b3,
      In k1 factors -> In b1 (baseFunctions L) ->
      In k2 factors -> In b2 (baseFunctions L) ->
      In k3 factors -> In b3 (baseFunctions L) ->
      op1 = Add \/ op1 = Multiply -> op2 = Add \/ op2 = Multiply ->
      (forall x, evaluate f x
                 = applyOp op2 (applyOp op1 (term k1 b1 x) (term k2 b2 x))
                           (term k3 b3 x)) ->
      Shape L f.

Lemma arrayGet_index {A : Type} (l : list A) :
  forall i z : Z, (0 <= z)%Z -> (Z.to_nat z < List.length l)%nat ->
  exists a : A,
    arrayGet l i (IZR (i + z)) = Some a /\ nth_error l (Z.to_nat z) = Some a.
Proof.
  induction l as [ | y l IH ]; intros i z Hz Hlen;
    cbn [List.length] in Hlen; [ lia | ].
  cbn [arrayGet neq ofZ R_Number].
  destruct (Z.eq_dec z 0) as [ -> | Hne ].
  - rewrite Z.add_0_r, R_eqb_true by reflexivity. exists y. split; reflexivity.
  - rewrite R_eqb_false by (intros H; apply eq_IZR in H; lia).
    destruct (IH (i + 1)%Z (z - 1)%Z) as (a & Ha & Hn); [ lia | lia | ].
    exists a. replace (i + z)%Z with (i + 1 + (z - 1))%Z by lia.
    split; [ exact Ha | ].
    replace (Z.to_nat z) with (S (Z.to_nat (z - 1))) by lia. exact Hn.
Qed.

(** [array[Math.floor(Math.random() * array.length)]] is an element. *)
Lemma pick_index {A : Type} (l : list A) (z : Z) (t : Tape R) :
  (0 <= z)%Z -> (Z.to_nat z < List.length l)%nat ->
  exists a : A,
    pick l (IZR z) t = Some (a, t) /\ nth_error l (Z.to_nat z) = Some a.
Proof.
  intros Hz Hlen. unfold pick.
  destruct (@arrayGet_index A l 0%Z z Hz Hlen) as (a & Ha & Hn).
  rewrite Z.add_0_l in Ha. rewrite Ha. exists a. split; [ reflexivity | exact Hn ].
Qed.

(** X24: on three draws of [Math.random()] in [[0, 1)],
    [createModifiedString] returns the function multiplied by one of
    [1/2, 1, 3/2, 2, 3] or their opposites: the scalar it picks is always an
    element of [scalars]. *)
Theorem createModifiedString_scales (func : MathNode R) (u1 u2 u3 : R)
    (t : Tape R) :
  unitDraw u1 -> unitDraw u2 -> unitDraw u3 ->
  exists (m : MathNode R) (t' : Tape R),
    createModifiedString func (Random u1 :: Random u2 :: Random u3 :: t)
    = Some (m, t')
    /\ scaledBy func m.
Proof.
  intros H1 H2 H3.
  destruct (@createModifiedString_unit func [u1; u2; u3] t)
    as (m & us' & Hm & _ & _ & Hscaled).
  - repeat (apply Forall_cons; [ assumption | ]). apply Forall_nil.
  - cbn [List.length]. lia.
  - exists m, (map Random us' ++ t). split; [ exact Hm | exact Hscaled ].
Qed.

Lemma createModifiedString_scales_witness :
  (unitDraw (1 / 5) /\ unitDraw (3 / 5) /\ unitDraw (7 / 10))
  /\ exists (m : MathNode R) (t' : Tape R),
       createModifiedString SymbolX
         [Random (1 / 5); Random (3 / 5); Random (7 / 10)] = Some (m, t')
       /\ scaledBy SymbolX m.
Proof.
  assert (H1 : unitDraw (1 / 5)) by (unfold unitDraw; lra).
  assert (H2 : unitDraw (3 / 5)) by (unfold unitDraw; lra).
  assert (H3 : unitDraw (7 / 10)) by (unfold unitDraw; lra).
  split; [ split; [ exact H1 | split; [ exact H2 | exact H3 ] ] | ].
  apply (@createModifiedString_scales SymbolX (1 / 5) (3 / 5) (7 / 10) []
           H1 H2 H3).
Defined.

Lemma random_unit (us : list R) (t : Tape R) :
  Forall unitDraw us -> (1 <= List.length us)%nat ->
  exists (u : R) (us' : list R),
    us = u :: us' /\ unitDraw u /\ Forall unitDraw us'.
Proof.
  intros Hus Hlen. destruct us as [ | u us' ]; cbn [List.length] in Hlen; [ lia | ].
  inversion Hus as [ | ? ? Hu Hus' ]; subst. exists u, us'.
  split; [ reflexivity | split; assumption ].
Qed.

Lemma pick_operator (ops : list BinOp) (u : R) (t : Tape R) :
  ops = [Add; Multiply] -> unitDraw u ->
  exists op : BinOp,
    pick ops (Math_floor (u * IZR 2)) t = Some (op, t)
    /\ (op = Add \/ op = Multiply).
Proof.
  intros -> Hu.
  destruct (@unit_floor u 2 Hu ltac:(lia)) as (z & Hz & Hfloor).
  rewrite Hfloor.
  destruct (@pick_index _ [Add; Multiply] z t ltac:(lia)
              ltac:(cbn [List.length]; lia)) as (op & Hpick & Hn).
  exists op. split; [ exact Hpick | ].
  assert (Hcases : z = 0%Z \/ z = 1%Z) by lia.
  destruct Hcases as [ -> | -> ]; cbn in Hn; injection Hn as <-; tauto.
Qed.

(** X25: on draws of [Math.random()] in [[0, 1)] and whatever order the
    random sort leaves, [generateRandomFunction] returns a function: no
    index it computes falls outside its array.  The function is one base
    function times a factor, or the sum, the product or the composition of
    two such terms, or two of them combined by [+] or [*] and the result
    combined with a third; it reads at most eleven draws after the sort. *)
Theorem generateRandomFunction_unit (L u0 : R) (order : list nat) (us : list R)
      (t : Tape R) :
  unitDraw u0 -> validOrder (baseFunctions L) order ->
  (3 <= List.length order)%nat ->
  Forall unitDraw us -> (11 <= List.length us)%nat ->
  exists (f : MathNode R) (us' : list R),
    generateRandomFunction L (Random u0 :: Sorted order :: map Random us ++ t)
    = Some (f, map Random us' ++ t)
    /\ Forall unitDraw us'
    /\ (List.length us - 11 <= List.length us')%nat
    /\ Shape L f.
Proof.
  intros Hu0 Horder Hlen Hus Hlenus.
  destruct (@unit_floor u0 3 Hu0 ltac:(lia)) as (z & Hz & Hfloor).
  destruct (@shuffled_spec _ (baseFunctions L) order Horder)
    as (s & Hs & Hslen & Hsin).
  unfold generateRandomFunction, bind, Math_random, sortRandomly.
  rewrite Hs. cbn [nmul nadd nsub neq ofZ Math_floor R_Number] in Hfloor |- *.
  rewrite Hfloor.
  assert (Hcases : z = 0%Z \/ z = 1%Z \/ z = 2%Z) by lia.
  destruct Hcases as [ -> | [ -> | -> ] ];
    unfold pick at 1; cbn [arrayGet neq ofZ R_Number Z.add Pos.add Pos.succ];
    repeat first [ rewrite R_eqb_true by lra | rewrite R_eqb_false by lra ];
    cbn [ret].
  - destruct (@chosen_firstn _ s (baseFunctions L) 1 0 (map Random us ++ t) Hsin
                ltac:(lia) ltac:(lia)) as (b1 & Hc1 & Hb1).
    rewrite Hc1.
    destruct (@createModifiedString_unit b1 us t Hus ltac:(lia))
      as (m1 & us1 & H1 & Hus1 & Hl1 & (k1 & Hk1 & He1)).
    rewrite H1. exists m1, us1. split; [ reflexivity | ].
    split; [ exact Hus1 | ]. split; [ lia | ].
    apply One with k1 b1; assumption.
  - destruct (@chosen_firstn _ s (baseFunctions L) 2 0 (map Random us ++ t) Hsin
                ltac:(lia) ltac:(lia)) as (b1 & Hc1 & Hb1).
    rewrite Hc1.
    destruct (@createModifiedString_unit b1 us t Hus ltac:(lia))
      as (m1 & us1 & H1 & Hus1 & Hl1 & (k1 & Hk1 & He1)).
    rewrite H1.
    destruct (@chosen_firstn _ s (baseFunctions L) 2 1 (map Random us1 ++ t) Hsin
                ltac:(lia) ltac:(lia)) as (b2 & Hc2 & Hb2).
    rewrite Hc2.
    destruct (@createModifiedString_unit b2 us1 t Hus1 ltac:(lia))
      as (m2 & us2 & H2 & Hus2 & Hl2 & (k2 & Hk2 & He2)).
    rewrite H2.
    destruct (@random_unit us2 t Hus2 ltac:(lia)) as (r1 & us3 & -> & Hr1 & Hus3).
    cbn [map app List.length] in Hl2 |- *.
    destruct (@unit_floor r1 3 Hr1 ltac:(lia)) as (z & Hz' & Hfloor').
    cbn [Math_floor R_Number] in Hfloor'. rewrite Hfloor'.
    destruct (@pick_index _ [Some Add; Some Multiply; None] z
                (map Random us3 ++ t) ltac:(lia)
                ltac:(cbn [List.length]; lia)) as (op & Hpick & Hn).
    rewrite Hpick.
    assert (Hcases : z = 0%Z \/ z = 1%Z \/ z = 2%Z) by lia.
    destruct Hcases as [ -> | [ -> | -> ] ]; cbn in Hn; injection Hn as <-.
    + eexists. exists us3. split; [ reflexivity | ].
      split; [ exact Hus3 | ]. split; [ lia | ].
      apply Two with Add k1 b1 k2 b2; try assumption; [ tauto | ].
      intros x. cbn [evaluate]. rewrite He1, He2. reflexivity.
    + eexists. exists us3. split; [ reflexivity | ].
      split; [ exact Hus3 | ]. split; [ lia | ].
      apply Two with Multiply k1 b1 k2 b2; try assumption; [ tauto | ].
      intros x. cbn [evaluate]. rewrite He1, He2. reflexivity.
    + destruct (@random_unit us3 t Hus3 ltac:(lia))
        as (r2 & us4 & -> & Hr2 & Hus4).
      cbn [map app List.length] in Hl2 |- *.
      cbn [nlt ndiv ofZ R_Number]. destruct (R_ltb r2 (1 / 2)).
      * eexists. exists us4. split; [ reflexivity | ].
        split; [ exact Hus4 | ]. split; [ lia | ].
        apply Composed with k1 b1 k2 b2; try assumption.
        intros x. rewrite evaluate_substitute. cbn [evaluate].
        rewrite He1, He2. reflexivity.
      * eexists. exists us4. split; [ reflexivity | ].
        split; [ exact Hus4 | ]. split; [ lia | ].
        apply Composed with k2 b2 k1 b1; try assumption.
        intros x. rewrite evaluate_substitute. cbn [evaluate].
        rewrite He2, He1. reflexivity.
  - destruct (@chosen_firstn _ s (baseFunctions L) 3 0 (map Random us ++ t) Hsin
                ltac:(lia) ltac:(lia)) as (b1 & Hc1 & Hb1).
    rewrite Hc1.
    destruct (@createModifiedString_unit b1 us t Hus ltac:(lia))
      as (m1 & us1 & H1 & Hus1 & Hl1 & (k1 & Hk1 & He1)).
    rewrite H1.
    destruct (@chosen_firstn _ s (baseFunctions L) 3 1 (map Random us1 ++ t) Hsin
                ltac:(lia) ltac:(lia)) as (b2 & Hc2 & Hb2).
    rewrite Hc2.
    destruct (@createModifiedString_unit b2 us1 t Hus1 ltac:(lia))
      as (m2 & us2 & H2 & Hus2 & Hl2 & (k2 & Hk2 & He2)).
    rewrite H2.
    destruct (@chosen_firstn _ s (baseFunctions L) 3 2 (map Random us2 ++ t) Hsin
                ltac:(lia) ltac:(lia)) as (b3 & Hc3 & Hb3).
    rewrite Hc3.
    destruct (@createModifiedString_unit b3 us2 t Hus2 ltac:(lia))
      as (m3 & us3 & H3 & Hus3 & Hl3 & (k3 & Hk3 & He3)).
    rewrite H3.
    destruct (@random_unit us3 t Hus3 ltac:(lia)) as (r1 & us4 & -> & Hr1 & Hus4).
    cbn [map app List.length] in Hl3 |- *.
    destruct (@pick_operator [Add; Multiply] r1 (map Random us4 ++ t) eq_refl Hr1)
      as (op1 & Hop1 & Hop1').
    cbn [Math_floor R_Number] in Hop1. rewrite Hop1.
    destruct (@random_unit us4 t Hus4 ltac:(lia)) as (r2 & us5 & -> & Hr2 & Hus5).
    cbn [map app List.length] in Hl3 |- *.
    destruct (@pick_operator [Add; Multiply] r2 (map Random us5 ++ t) eq_refl Hr2)
      as (op2 & Hop2 & Hop2').
    cbn [Math_floor R_Number] in Hop2. rewrite Hop2.
    eexists. exists us5. split; [ reflexivity | ].
    split; [ exact Hus5 | ]. split; [ lia | ].
    apply Three with op1 op2 k1 b1 k2 b2 k3 b3; try assumption.
    intros x. cbn [evaluate]. rewrite He1, He2, He3. reflexivity.
Qed.

Lemma unit_halves (n : nat) : Forall unitDraw (repeat (1 / 2) n).
Proof.
  apply Forall_forall. intros x Hx. apply repeat_spec in Hx. subst x.
  unfold unitDraw. lra.
Qed.

Lemma generateRandomFunction_unit_witness :
  (unitDraw (1 / 2) /\ validOrder (baseFunctions 1) [4; 0; 12]%nat)
  /\ exists (f : MathNode R) (us' : list R),
       generateRandomFunction 1
         (Random (1 / 2) :: Sorted [4; 0; 12]%nat
            :: map Random (repeat (1 / 2) 11) ++ [])
       = Some (f, map Random us' ++ [])
       /\ Forall unitDraw us'
       /\ (List.length (repeat (1 / 2) 11) - 11 <= List.length us')%nat
       /\ Shape 1 f.
Proof.
  assert (Hu : unitDraw (1 / 2)) by (unfold unitDraw; lra).
  assert (Ho : validOrder (baseFunctions 1) [4; 0; 12]%nat).
  { unfold validOrder.
    repeat (apply Forall_cons; [ cbn [baseFunctions List.length]; lia | ]).
    apply Forall_nil. }
  split; [ split; assumption | ].
  apply (@generateRandomFunction_unit 1 (1 / 2) [4; 0; 12]%nat
           (repeat (1 / 2) 11) [] Hu Ho).
  - cbn [List.length]. lia.
  - apply unit_halves.
  - rewrite repeat_length. lia.
Defined.

End ExactGenerator.

(** ** The settings dialog ([Settings]) *)

(** The four settings of the page's style. *)
Record StyleSettings (N Color : Type) : Type := mkStyleSettings {
  s_isDarkMode : bool;
  s_lineThickness : N;
  s_func1Color : Color;
  s_func2Color : Color
}.

(** [AppSettings]: the game's three and the style's four. *)
Definition AppSettings (N Color : Type) : Type :=
  (GameSettings * StyleSettings N Color)%type.

(** The inputs of the dialog, by [name]. *)
Inductive CheckboxName : Set :=
  | name_isUnitaryMode | name_acuteAnglesOnly | name_isEasyInterval
  | name_isDarkMode.

Inductive ColorName : Set := name_func1Color | name_func2Color.

(** A change event: a checkbox with its [checked], the number input
    [lineThickness] with [parseFloat(value)], or a colour input with its
    [value]. *)
Inductive InputChange (N Color : Type) : Type :=
  | CheckboxChange : CheckboxName -> bool -> InputChange N Color
  | NumberChange : N -> InputChange N Color
  | ColorChange : ColorName -> Color -> InputChange N Color.

Arguments CheckboxChange {N Color} _ _.
Arguments NumberChange {N Color} _.
Arguments ColorChange {N Color} _ _.

Section SettingsDialog.

Context {N : Type} {num : Number N} {lib : MathLib N} {Color : Type}.

Local Abbreviation Settings := (AppSettings N Color).
Local Abbreviation App := (AppState N (StyleSettings N Color)).

(** [{ ...localSettings, [name]: value }]. *)
Definition withInput (e : InputChange N Color) (localSettings : Settings)
    : Settings :=
  let (game, style) := localSettings in
  match e with
  | CheckboxChange name_isUnitaryMode checked =>
      (mkGameSettings checked (s_acuteAnglesOnly game) (s_isEasyInterval game),
       style)
  | CheckboxChange name_acuteAnglesOnly checked =>
      (mkGameSettings (s_isUnitaryMode game) checked (s_isEasyInterval game),
       style)
  | CheckboxChange name_isEasyInterval checked =>
      (mkGameSettings (s_isUnitaryMode game) (s_acuteAnglesOnly game) checked,
       style)
  | CheckboxChange name_isDarkMode checked =>
      (game, mkStyleSettings checked (s_lineThickness style)
                             (s_func1Color style) (s_func2Color style))
  | NumberChange value =>
      (game, mkStyleSettings (s_isDarkMode style) value
                             (s_func1Color style) (s_func2Color style))
  | ColorChange name_func1Color value =>
      (game, mkStyleSettings (s_isDarkMode style) (s_lineThickness style)
                             value (s_func2Color style))
  | ColorChange name_func2Color value =>
      (game, mkStyleSettings (s_isDarkMode style) (s_lineThickness style)
                             (s_func1Color style) value)
  end.

(** [cosmeticChanges.includes(name)]. *)
Definition isCosmetic (e : InputChange N Color) : bool :=
  match e with
  | CheckboxChange name_isDarkMode _ => true
  | CheckboxChange _ _ => false
  | NumberChange _ => true
  | ColorChange _ _ => true
  end.

(** [onSettingsChange], which is [setSettings] of [App], with the effect
    that follows it. *)
Definition onSettingsChange (newSettings : Settings) (app : App) : App :=
  settingsChanged (fst newSettings) (snd newSettings) app.

(** [handleInputChange]: the new local settings and what becomes of [App]. *)
Definition handleInputChange (e : InputChange N Color)
    (localSettings : Settings) (app : App) : Settings * App :=
  let newSettings := withInput e localSettings in
  (newSettings,
   if isCosmetic e then onSettingsChange newSettings app else app).

(** [handleClose]. *)
Definition handleClose (localSettings : Settings) (app : App) : App :=
  onSettingsChange localSettings app.

Lemma withInput_cosmetic (e : InputChange N Color) (localSettings : Settings) :
  isCosmetic e = true -> fst (withInput e localSettings) = fst localSettings.
Proof.
  destruct localSettings as [ game style ].
  destruct e as [ [ | | | ] checked | value | [ | ] value ]; cbn;
    intros H; try reflexivity; discriminate.
Qed.

(** X27: a change of a game setting in the dialog stays in the dialog; a
    change of a style setting hands all the local settings to [App], and if
    a game setting was changed in the dialog before, that resets the game
    at once, without the dialog being closed: the total is 0, the history
    is empty and a first round is being prepared. *)
Theorem style_change_commits_game_settings (e : InputChange N Color)
    (localSettings : Settings) (app : App) :
  (isCosmetic e = false -> snd (handleInputChange e localSettings app) = app)
  /\ (isCosmetic e = true ->
      st_game (snd (handleInputChange e localSettings app)) = fst localSettings
      /\ st_cosmetic (snd (handleInputChange e localSettings app))
         = snd (withInput e localSettings))
  /\ (isCosmetic e = true ->
      GameSettings_eqb (st_game app) (fst localSettings) = false ->
      st_totalScore (snd (handleInputChange e localSettings app)) = ofZ 0
      /\ st_history (snd (handleInputChange e localSettings app)) = []
      /\ st_gameState (snd (handleInputChange e localSettings app)) = loading).
Proof.
  unfold handleInputChange, onSettingsChange, settingsChanged. cbn [snd].
  split; [ intros ->; reflexivity | ].
  split.
  - intros Hc. rewrite Hc, (withInput_cosmetic e localSettings Hc).
    destruct (GameSettings_eqb _ _); split; reflexivity.
  - intros Hc Hpending.
    rewrite Hc, (withInput_cosmetic e localSettings Hc), Hpending.
    repeat split.
Qed.

End SettingsDialog.

(** * Rounded arithmetic *)

(** binary64 rounds the result of every operation.  What a run of the code
    gives is computed above in binary64 itself.  What holds of all inputs is
    proved here in the usual model of a rounding arithmetic: a number is a
    real number, and an operation is the exact one followed by a rounding
    [rnd], of which a theorem assumes only what it uses and what rounding
    to the nearest binary64 number offers (it is monotone, leaves the
    integers up to [2^53] alone, and moves a number of the normal range by
    at most the fraction [2^-53] of itself).  The math library is any
    library, with what a theorem assumes of it stated there.  NaN and the
    infinities have no place in the model: its theorems are about runs
    that stay finite. *)

Module Rounded.

Local Open Scope R_scope.


Section Model.

Variable rnd : R -> R.
Variable libm : MathLib R.

Definition rounded_Number : Number R := {|
  ofZ := IZR;
  nadd := fun x y => rnd (x + y);
  nsub := fun x y => rnd (x - y);
  nmul := fun x y => rnd (x * y);
  ndiv := fun x y => rnd (x / y);
  nopp := Ropp;
  nlt := Exact.R_ltb;
  neq := Exact.R_eqb;
  Math_abs := Rabs;
  Math_sqrt := fun x => rnd (sqrt x);
  Math_max := Rmax;
  Math_min := Rmin;
  Math_floor := Exact.R_floor;
  Math_ceil := Exact.R_ceil;
  isFinite := fun _ => true
|}.

(** What is assumed of the rounding. *)
Definition monotone : Prop := forall x y : R, x <= y -> rnd x <= rnd y.

Definition keepsIntegers : Prop :=
  forall z : Z, (Z.abs z <= 2 ^ 53)%Z -> rnd (IZR z) = IZR z.


(** What is assumed of [Math.pow(m, 3)] for [m] in [[0, 1]]: its values at
    0 and at 1, which are exact, and that it does not decrease when [m]
    grows. *)
Definition cubes : Prop :=
  @Math_pow R libm 0 3 = 0
  /\ @Math_pow R libm 1 3 = 1
  /\ forall x y : R, 0 <= x <= y -> y <= 1 ->
       @Math_pow R libm x 3 <= @Math_pow R libm y 3.

(** [submitGuess] in this arithmetic. *)
Definition diffOf (actual guess : R) : R :=
  fst (@submitGuess R rounded_Number libm actual guess).
Definition scoreOf (actual guess : R) : R :=
  snd (@submitGuess R rounded_Number libm actual guess).

Lemma diffOf_formula (actual guess : R) :
  diffOf actual guess = Rabs (rnd (actual - guess)).
Proof. reflexivity. Qed.

Lemma scoreOf_rounded (actual guess : R) :
  scoreOf actual guess
  = rnd (100 * @Math_pow R libm
                 (Rmax 0 (rnd (1 - rnd (diffOf actual guess / 180)))) 3).
Proof. reflexivity. Qed.

Lemma rnd_integer (z : Z) :
  keepsIntegers -> (Z.abs z <= 2 ^ 53)%Z -> rnd (IZR z) = IZR z.
Proof. intros H Hz. apply H. exact Hz. Qed.

(** The base of the cube: between 0 and 1, and not larger for a larger
    difference. *)
Definition baseOf (diff : R) : R := Rmax 0 (rnd (1 - rnd (diff / 180))).

Lemma baseOf_range (diff : R) :
  monotone -> keepsIntegers -> 0 <= diff -> 0 <= baseOf diff <= 1.
Proof.
  intros Hm Hk Hd. unfold baseOf. split; [ apply Rmax_l | ].
  apply Rmax_lub; [ lra | ].
  assert (H0 : 0 <= rnd (diff / 180)).
  { rewrite <- (@rnd_integer 0 Hk) by (cbn; lia). apply Hm. lra. }
  rewrite <- (@rnd_integer 1 Hk) at 2 by (cbn; lia). apply Hm. lra.
Qed.

Lemma baseOf_decreasing (diff diff' : R) :
  monotone -> diff <= diff' -> baseOf diff' <= baseOf diff.
Proof.
  intros Hm Hd. unfold baseOf. apply Rle_max_compat_l.
  apply Hm. assert (rnd (diff / 180) <= rnd (diff' / 180)) by (apply Hm; lra).
  lra.
Qed.

Lemma baseOf_zero (diff : R) :
  monotone -> keepsIntegers -> 180 <= diff -> baseOf diff = 0.
Proof.
  intros Hm Hk Hd. unfold baseOf. apply Rmax_left.
  assert (H1 : 1 <= rnd (diff / 180)).
  { rewrite <- (@rnd_integer 1 Hk) by (cbn; lia). apply Hm. lra. }
  rewrite <- (@rnd_integer 0 Hk) by (cbn; lia). apply Hm. lra.
Qed.

(** C6, amended: the score is the formula computed with rounding; for
    every angle and guess (numbers, not NaN) it lies in [[0, 100]], it is 0
    when the difference is 180 or more, and a larger difference never
    scores more; equal angle and guess score 100, and the guess 180 for the
    angle 0 scores 0.  A larger difference need not score less: see
    [equal_scores_for_different_diffs]. *)
Theorem score_with_rounding (actual guess actual' guess' : R) :
  monotone -> keepsIntegers -> cubes ->
  diffOf actual guess = Rabs (rnd (actual - guess))
  /\ scoreOf actual guess
     = rnd (100 * @Math_pow R libm
                    (Rmax 0 (rnd (1 - rnd (diffOf actual guess / 180)))) 3)
  /\ 0 <= scoreOf actual guess <= 100
  /\ (180 <= diffOf actual guess -> scoreOf actual guess = 0)
  /\ (diffOf actual guess <= diffOf actual' guess' ->
      scoreOf actual' guess' <= scoreOf actual guess)
  /\ scoreOf 0 0 = 100
  /\ scoreOf 0 180 = 0.
Proof.
  intros Hm Hk (Hp0 & Hp1 & Hpm).
  assert (Hpos : forall a g, 0 <= diffOf a g)
    by (intros a g; rewrite diffOf_formula; apply Rabs_pos).
  assert (Hs : forall a g,
             scoreOf a g
             = rnd (100 * @Math_pow R libm (baseOf (diffOf a g)) 3))
    by (intros a g; apply scoreOf_rounded).
  assert (Hzero : forall a g, 180 <= diffOf a g -> scoreOf a g = 0).
  { intros a g H180. rewrite Hs, (baseOf_zero Hm Hk H180), Hp0.
    replace (100 * 0) with 0 by ring. apply (@rnd_integer 0 Hk). cbn. lia. }
  split; [ apply diffOf_formula | ]. split; [ apply scoreOf_rounded | ].
  split.
  { rewrite Hs.
    pose proof (baseOf_range Hm Hk (Hpos actual guess)) as [ Hb0 Hb1 ].
    assert (Hlo : 0 <= @Math_pow R libm (baseOf (diffOf actual guess)) 3)
      by (rewrite <- Hp0; apply Hpm; lra).
    assert (Hhi : @Math_pow R libm (baseOf (diffOf actual guess)) 3 <= 1)
      by (rewrite <- Hp1; apply Hpm; lra).
    split.
    - rewrite <- (@rnd_integer 0 Hk) by (cbn; lia). apply Hm. lra.
    - rewrite <- (@rnd_integer 100 Hk) at 2 by (cbn; lia). apply Hm. lra. }
  split; [ apply Hzero | ].
  split.
  { intros Hle. rewrite !Hs. apply Hm.
    pose proof (baseOf_range Hm Hk (Hpos actual guess)) as [ _ Hb1 ].
    pose proof (baseOf_range Hm Hk (Hpos actual' guess')) as [ Hb0' _ ].
    pose proof (baseOf_decreasing Hm Hle) as Hb.
    assert (@Math_pow R libm (baseOf (diffOf actual' guess')) 3
            <= @Math_pow R libm (baseOf (diffOf actual guess)) 3)
      by (apply Hpm; lra).
    lra. }
  split.
  - rewrite Hs, diffOf_formula. replace (0 - 0) with 0 by ring.
    rewrite (@rnd_integer 0 Hk), Rabs_R0 by (cbn; lia).
    unfold baseOf. replace (0 / 180) with 0 by (unfold Rdiv; ring).
    rewrite (@rnd_integer 0 Hk) by (cbn; lia).
    replace (1 - 0) with 1 by ring.
    rewrite (@rnd_integer 1 Hk), Rmax_right, Hp1 by (cbn; lia || lra).
    replace (100 * 1) with 100 by ring. apply (@rnd_integer 100 Hk). cbn. lia.
  - apply Hzero. rewrite diffOf_formula.
    replace (0 - 180) with (-180) by ring.
    rewrite (@rnd_integer (-180) Hk) by (cbn; lia).
    rewrite Rabs_left; lra.
Qed.

(** ** The scaling pass with rounding *)


















(** ** The easing curve with rounding *)

(** What is assumed of [Math.pow(2, y)] for [y] in [[-10, 0]]: the two
    values at the ends, which are exact, and that it does not decrease when
    [y] grows. *)
Definition powersOfTwo : Prop :=
  @Math_pow R libm 2 0 = 1
  /\ @Math_pow R libm 2 (-10) = / 1024
  /\ forall x y : R, -10 <= x <= y -> y <= 0 ->
       @Math_pow R libm 2 x <= @Math_pow R libm 2 y.

Definition ease (t : R) : R := @easeOutExpo R rounded_Number libm t.

Lemma ease_below_1 (t : R) :
  t <> 1 -> ease t = rnd (1 - @Math_pow R libm 2 (rnd (- (10) * t))).
Proof.
  intros Ht. unfold ease, easeOutExpo.
  cbn [neq ofZ nsub nmul nopp rounded_Number].
  rewrite ExactAngle.R_eqb_false by exact Ht. reflexivity.
Qed.

Lemma ease_range (t : R) :
  monotone -> keepsIntegers -> rnd (1023 / 1024) = 1023 / 1024 ->
  powersOfTwo ->
  0 <= t < 1 -> 0 <= ease t <= 1023 / 1024.
Proof.
  intros Hm Hk Hg (Hp0 & Hp10 & Hpm) Ht.
  rewrite ease_below_1 by lra.
  assert (He : -10 <= rnd (- (10) * t) <= 0).
  { split.
    - rewrite <- (@rnd_integer (-10) Hk) by (cbn; lia). apply Hm. lra.
    - rewrite <- (@rnd_integer 0 Hk) by (cbn; lia). apply Hm. lra. }
  assert (Hlo : / 1024 <= @Math_pow R libm 2 (rnd (- (10) * t)))
    by (rewrite <- Hp10; apply Hpm; lra).
  assert (Hhi : @Math_pow R libm 2 (rnd (- (10) * t)) <= 1)
    by (rewrite <- Hp0; apply Hpm; lra).
  split.
  - rewrite <- (@rnd_integer 0 Hk) by (cbn; lia). apply Hm. lra.
  - rewrite <- Hg. apply Hm. lra.
Qed.

(** X22: with rounding, the easing curve is 0 at 0 and 1 at 1, never
    decreases in between, and stays between 0 and [1023/1024] below 1: the
    step to 1 is a jump.  Two times that are close can get the same value,
    and [1023/1024] can be reached before 1. *)
Theorem easeOutExpo_with_rounding (t t' : R) :
  monotone -> keepsIntegers -> rnd (1023 / 1024) = 1023 / 1024 ->
  powersOfTwo ->
  ease 0 = 0
  /\ ease 1 = 1
  /\ (0 <= t -> t <= t' -> t' <= 1 -> ease t <= ease t')
  /\ (0 <= t < 1 -> 0 <= ease t <= 1023 / 1024).
Proof.
  intros Hm Hk Hg Hp.
  assert (H1 : ease 1 = 1).
  { unfold ease, easeOutExpo. cbn [neq ofZ rounded_Number].
    rewrite ExactAngle.R_eqb_true by reflexivity. reflexivity. }
  split.
  { destruct Hp as (Hp0 & _ & _). rewrite ease_below_1 by lra.
    replace (- (10) * 0) with 0 by ring.
    rewrite (@rnd_integer 0 Hk), Hp0 by (cbn; lia).
    replace (1 - 1) with 0 by ring. apply (@rnd_integer 0 Hk). cbn. lia. }
  split; [ exact H1 | ].
  split; [ | apply ease_range; assumption ].
  intros Ht Htt Ht'.
  destruct (Req_dec_T t' 1) as [ -> | Hne ].
  - rewrite H1. destruct (Req_dec_T t 1) as [ -> | Hne ]; [ lra | ].
    assert (Hr : 0 <= t < 1) by lra.
    pose proof (@ease_range t Hm Hk Hg Hp Hr). lra.
  - rewrite !ease_below_1 by lra. apply Hm.
    destruct Hp as (_ & _ & Hpm).
    assert (He : -10 <= rnd (- (10) * t') <= rnd (- (10) * t)).
    { split.
      - rewrite <- (@rnd_integer (-10) Hk) by (cbn; lia). apply Hm. lra.
      - apply Hm. lra. }
    assert (He0 : rnd (- (10) * t) <= 0)
      by (rewrite <- (@rnd_integer 0 Hk) by (cbn; lia); apply Hm; lra).
    assert (@Math_pow R libm 2 (rnd (- (10) * t'))
            <= @Math_pow R libm 2 (rnd (- (10) * t)))
      by (apply Hpm; lra).
    lra.
Qed.

(** ** The statistics with rounding *)

Definition statsOf (history : list (RoundData R)) : SessionStats R :=
  @stats R rounded_Number history.

Definition sumWith (field : RoundData R -> R) (history : list (RoundData R))
    (acc : R) : R :=
  fold_left (fun a h => rnd (a + field h)) history acc.

(** A sum of [n] numbers between the integers [lo] and [hi] is between
    [n * lo] and [n * hi], which are numbers of the format: no addition
    rounds across them. *)
Lemma sumWith_bounds (field : RoundData R -> R) (lo hi : Z)
      (history : list (RoundData R)) :
  monotone -> keepsIntegers ->
  Forall (fun h => IZR lo <= field h <= IZR hi) history ->
  forall (k : Z) (acc : R),
    (0 <= k)%Z ->
    ((k + Z.of_nat (List.length history)) * Z.max (Z.abs lo) (Z.abs hi)
     <= 2 ^ 53)%Z ->
    IZR (k * lo) <= acc <= IZR (k * hi) ->
    IZR ((k + Z.of_nat (List.length history)) * lo)
    <= sumWith field history acc
    <= IZR ((k + Z.of_nat (List.length history)) * hi).
Proof.
  intros Hm Hk. induction 1 as [ | h history Hh _ IH ]; intros k acc Hk0 Hsize Hacc.
  - cbn [List.length Z.of_nat sumWith fold_left]. rewrite Z.add_0_r. exact Hacc.
  - cbn [sumWith fold_left]. fold (sumWith field history (rnd (acc + field h))).
    replace (k + Z.of_nat (List.length (h :: history)))%Z
      with (k + 1 + Z.of_nat (List.length history))%Z in *
      by (cbn [List.length]; lia).
    apply IH; [ lia | exact Hsize | ].
    assert (Hlo : (Z.abs ((k + 1) * lo) <= 2 ^ 53)%Z) by nia.
    assert (Hhi : (Z.abs ((k + 1) * hi) <= 2 ^ 53)%Z) by nia.
    rewrite <- (@rnd_integer ((k + 1) * lo) Hk Hlo).
    rewrite <- (@rnd_integer ((k + 1) * hi) Hk Hhi).
    rewrite !mult_IZR, plus_IZR in *.
    split; apply Hm; lra.
Qed.

Lemma average_with_rounding (field : RoundData R -> R) (lo hi : Z)
      (history : list (RoundData R)) :
  monotone -> keepsIntegers -> history <> [] ->
  (Z.of_nat (List.length history) * Z.max (Z.abs lo) (Z.abs hi) <= 2 ^ 53)%Z ->
  Forall (fun h => IZR lo <= field h <= IZR hi) history ->
  IZR lo
  <= rnd (sumWith field history 0 / IZR (Z.of_nat (List.length history)))
  <= IZR hi.
Proof.
  intros Hm Hk Hne Hsize Hall.
  assert (Hn : (1 <= Z.of_nat (List.length history))%Z)
    by (destruct history; [ contradiction | cbn [List.length]; lia ]).
  pose proof (@sumWith_bounds field lo hi history Hm Hk Hall 0 0 (Z.le_refl 0))
    as Hsum.
  rewrite !Z.add_0_l in Hsum.
  specialize (Hsum Hsize ltac:(cbn; lra)).
  set (n := Z.of_nat (List.length history)) in *.
  assert (Hnpos : 0 < IZR n) by (apply IZR_lt; lia).
  rewrite !mult_IZR in Hsum.
  assert (Hq : IZR lo <= sumWith field history 0 / IZR n <= IZR hi).
  { split.
    - apply Rmult_le_reg_r with (IZR n); [ exact Hnpos | ].
      replace (sumWith field history 0 / IZR n * IZR n)
        with (sumWith field history 0) by (field; lra). lra.
    - apply Rmult_le_reg_r with (IZR n); [ exact Hnpos | ].
      replace (sumWith field history 0 / IZR n * IZR n)
        with (sumWith field history 0) by (field; lra). lra. }
  assert (Hlo : (Z.abs lo <= 2 ^ 53)%Z) by nia.
  assert (Hhi : (Z.abs hi <= 2 ^ 53)%Z) by nia.
  rewrite <- (@rnd_integer lo Hk Hlo) at 1.
  rewrite <- (@rnd_integer hi Hk Hhi) at 1.
  split; apply Hm; lra.
Qed.

Lemma insertSorted_rounded (x : R) (l : list R) :
  Permutation (@insertSorted R rounded_Number x l) (x :: l).
Proof.
  induction l as [ | y l IH ]; cbn [insertSorted].
  - apply Permutation_refl.
  - destruct (@nlt R rounded_Number _ _).
    + apply Permutation_refl.
    + apply perm_trans with (y :: x :: l); [ | apply perm_swap ].
      apply perm_skip. exact IH.
Qed.

Lemma sortAscending_rounded (l : list R) :
  Permutation (@sortAscending R rounded_Number l) l.
Proof.
  induction l as [ | x l IH ]; cbn [sortAscending fold_right].
  - apply perm_nil.
  - apply perm_trans with (x :: @sortAscending R rounded_Number l).
    + apply insertSorted_rounded.
    + apply perm_skip. exact IH.
Qed.

Lemma sorted_nth_rounded (lo hi : R) (history : list (RoundData R)) (i : nat) :
  Forall (fun h => lo <= rd_diff h <= hi) history ->
  (i < List.length history)%nat ->
  lo <= nth i (@sortAscending R rounded_Number (map (@rd_diff R) history)) 0
     <= hi.
Proof.
  intros Hall Hi.
  pose proof (sortAscending_rounded (map (@rd_diff R) history)) as Hp.
  assert (Hlen : List.length
                   (@sortAscending R rounded_Number (map (@rd_diff R) history))
                 = List.length history)
    by (rewrite (Permutation_length Hp); apply length_map).
  assert (Hin : In (nth i (@sortAscending R rounded_Number
                             (map (@rd_diff R) history)) 0)
                   (map (@rd_diff R) history)).
  { apply (Permutation_in _ Hp). apply nth_In. lia. }
  apply in_map_iff in Hin. destruct Hin as [ h [ Hh Hin ] ].
  rewrite Forall_forall in Hall. rewrite <- Hh. apply Hall. exact Hin.
Qed.

(** X18: with rounding, after at least one round, if every recorded
    difference lies between two integers then so do the average difference,
    the average over the last ten rounds and the median difference, and the
    average score lies between any two integers that bound the recorded
    scores (the sums staying below [2^52]): as for differences between 0
    and 180 and scores between 0 and 100. *)
Theorem stats_with_rounding (history : list (RoundData R))
    (lo hi slo shi : Z) :
  monotone -> keepsIntegers -> history <> [] ->
  (Z.of_nat (List.length history) * Z.max (Z.abs lo) (Z.abs hi) <= 2 ^ 52)%Z ->
  (Z.of_nat (List.length history) * Z.max (Z.abs slo) (Z.abs shi)
   <= 2 ^ 52)%Z ->
  Forall (fun h => IZR lo <= rd_diff h <= IZR hi) history ->
  Forall (fun h => IZR slo <= rd_score h <= IZR shi) history ->
  IZR lo <= avgDiff (statsOf history) <= IZR hi
  /\ IZR lo <= avgDiffLast10 (statsOf history) <= IZR hi
  /\ IZR lo <= medianDiff (statsOf history) <= IZR hi
  /\ IZR slo <= avgScore (statsOf history) <= IZR shi.
Proof.
  intros Hm Hk Hne Hsize Hssize Hd Hs. unfold statsOf, stats.
  destruct (List.length history) as [ | n ] eqn:Hlen;
    [ destruct history; [ contradiction | discriminate ] | ].
  cbn [avgDiff avgDiffLast10 medianDiff avgScore]. rewrite <- Hlen.
  assert (Hn : (1 <= Z.of_nat (List.length history))%Z) by lia.
  split.
  { apply (@average_with_rounding (@rd_diff R) lo hi history); try assumption.
    lia. }
  split.
  { apply (@average_with_rounding (@rd_diff R) lo hi (lastTen history)).
    - exact Hm.
    - exact Hk.
    - apply ExactStats.lastTen_nonempty. exact Hne.
    - rewrite lastTen_length.
      assert ((Z.of_nat (Nat.min 10 (List.length history))
               <= Z.of_nat (List.length history))%Z) by lia.
      nia.
    - apply ExactStats.lastTen_Forall. exact Hd. }
  split; [ | apply (@average_with_rounding (@rd_score R) slo shi history);
             try assumption; lia ].
  rewrite Hlen.
  assert (Hmid : (Nat.div (S n) 2 < List.length history)%nat).
  { rewrite Hlen. apply Nat.div_lt; lia. }
  pose proof (@sorted_nth_rounded (IZR lo) (IZR hi) history _ Hd Hmid) as Hb.
  destruct (Nat.eqb (Nat.modulo (S n) 2) 0) eqn:Heven; [ | exact Hb ].
  assert (Hmid' : (Nat.div (S n) 2 - 1 < List.length history)%nat) by lia.
  pose proof (@sorted_nth_rounded (IZR lo) (IZR hi) history _ Hd Hmid') as Hb'.
  cbn [nadd ndiv ofZ rounded_Number].
  set (a := nth (Nat.div (S n) 2 - 1) _ 0) in *.
  set (b := nth (Nat.div (S n) 2) _ 0) in *.
  assert (H2lo : (Z.abs (2 * lo) <= 2 ^ 53)%Z) by nia.
  assert (H2hi : (Z.abs (2 * hi) <= 2 ^ 53)%Z) by nia.
  assert (Hlo : (Z.abs lo <= 2 ^ 53)%Z) by nia.
  assert (Hhi : (Z.abs hi <= 2 ^ 53)%Z) by nia.
  assert (Hsum : IZR (2 * lo) <= rnd (a + b) <= IZR (2 * hi)).
  { rewrite <- (@rnd_integer (2 * lo) Hk H2lo) at 1.
    rewrite <- (@rnd_integer (2 * hi) Hk H2hi) at 1.
    rewrite !mult_IZR. split; apply Hm; lra. }
  rewrite !mult_IZR in Hsum.
  rewrite <- (@rnd_integer lo Hk Hlo) at 1.
  rewrite <- (@rnd_integer hi Hk Hhi) at 1.
  split; apply Hm; lra.
Qed.

End Model.


(** A rounding that meets what is assumed: downwards to a multiple of
    [2^-10]. *)
Definition toGrid (x : R) : R := IZR (Int_part (x * 1024)) / 1024.

Lemma Int_part_monotone (x y : R) : x <= y -> (Int_part x <= Int_part y)%Z.
Proof.
  intros Hxy. destruct (base_Int_part x) as [ Hx _ ].
  destruct (base_Int_part y) as [ _ Hy ].
  assert (H : (Int_part x < Int_part y + 1)%Z)
    by (apply lt_IZR; rewrite plus_IZR; lra).
  lia.
Qed.

Lemma Int_part_IZR (z : Z) : Int_part (IZR z) = z.
Proof. symmetry. apply Int_part_spec. lra. Qed.

Lemma toGrid_monotone : monotone toGrid.
Proof.
  intros x y Hxy. unfold toGrid.
  assert (H : (Int_part (x * 1024) <= Int_part (y * 1024))%Z)
    by (apply Int_part_monotone; lra).
  apply IZR_le in H. lra.
Qed.

Lemma toGrid_multiple (z : Z) : toGrid (IZR z / 1024) = IZR z / 1024.
Proof.
  unfold toGrid. replace (IZR z / 1024 * 1024) with (IZR z) by (field; lra).
  rewrite Int_part_IZR. reflexivity.
Qed.

Lemma toGrid_integers : keepsIntegers toGrid.
Proof.
  intros z _. replace (IZR z) with (IZR (z * 1024) / 1024)
    by (rewrite mult_IZR; field).
  apply toGrid_multiple.
Qed.

Lemma exact_cubes : cubes Exact.R_MathLib.
Proof.
  unfold cubes. cbn [Math_pow Exact.R_MathLib].
  rewrite !ExactAngle.R_pow_3. split; [ ring | ]. split; [ ring | ].
  intros x y Hxy Hy. rewrite !ExactAngle.R_pow_3.
  assert (H2 : x * x <= y * y) by nra. nra.
Qed.

Lemma score_with_rounding_witness :
  (monotone toGrid /\ keepsIntegers toGrid /\ cubes Exact.R_MathLib)
  /\ 0 <= scoreOf toGrid Exact.R_MathLib 60 45 <= 100.
Proof.
  split; [ split; [ exact toGrid_monotone
                  | split; [ exact toGrid_integers | exact exact_cubes ] ] | ].
  apply (@score_with_rounding toGrid Exact.R_MathLib 60 45 60 50
           toGrid_monotone toGrid_integers exact_cubes).
Defined.



Lemma exact_powersOfTwo : powersOfTwo Exact.R_MathLib.
Proof.
  unfold powersOfTwo. cbn [Math_pow Exact.R_MathLib].
  rewrite !ExactCountUp.R_pow_real by lra.
  split; [ apply Rpower_O; lra | ].
  split; [ exact ExactCountUp.Rpower_2_minus_10 | ].
  intros x y Hxy Hy. rewrite !ExactCountUp.R_pow_real by lra.
  destruct (Req_dec_T x y) as [ -> | Hne ]; [ lra | ].
  left. apply Rpower_lt; lra.
Qed.

Lemma easeOutExpo_with_rounding_witness :
  (monotone toGrid /\ keepsIntegers toGrid
   /\ toGrid (1023 / 1024) = 1023 / 1024 /\ powersOfTwo Exact.R_MathLib)
  /\ ease toGrid Exact.R_MathLib 0 = 0.
Proof.
  assert (Hg : toGrid (1023 / 1024) = 1023 / 1024)
    by exact (toGrid_multiple 1023).
  split; [ repeat split;
           [ exact toGrid_monotone | exact toGrid_integers | exact Hg
           | apply exact_powersOfTwo .. ] | ].
  apply (@easeOutExpo_with_rounding toGrid Exact.R_MathLib (1 / 4) (1 / 2)
           toGrid_monotone toGrid_integers Hg exact_powersOfTwo).
Defined.

Definition twoRounds : list (RoundData R) :=
  [ mkRoundData 30 45 15 70; mkRoundData 80 60 20 60 ].

Lemma stats_with_rounding_witness :
  (monotone toGrid /\ keepsIntegers toGrid /\ twoRounds <> [])
  /\ 0 <= medianDiff (statsOf toGrid twoRounds) <= 180.
Proof.
  assert (Hne : twoRounds <> []) by discriminate.
  split; [ split; [ exact toGrid_monotone
                  | split; [ exact toGrid_integers | exact Hne ] ] | ].
  apply (@stats_with_rounding toGrid twoRounds 0 180 0 100
           toGrid_monotone toGrid_integers Hne).
  - cbn. lia.
  - cbn. lia.
  - repeat (apply Forall_cons; [ cbn [rd_diff]; lra | ]). apply Forall_nil.
  - repeat (apply Forall_cons; [ cbn [rd_score]; lra | ]). apply Forall_nil.
Defined.

End Rounded.

(** * binary64 runs where rounding decides *)

Module Binary64Score.

Import Binary64.
Local Open Scope float_scope.

(** Against C6: for the angle 0, the guesses 0 and [2^-50] (the text
    8.881784197001252e-16) have the differences 0 and [2^-50], and the same
    score with every math library: [1 - diff / 180] is 1 for both. *)
Lemma equal_scores_for_different_diffs :
  (forall L : Libm,
     fst (@submitGuess float float_Number (@float_MathLib L) 0 0) = 0
     /\ fst (@submitGuess float float_Number (@float_MathLib L) 0 0x1p-50)
        = 0x1p-50
     /\ snd (@submitGuess float float_Number (@float_MathLib L) 0 0x1p-50)
        = snd (@submitGuess float float_Number (@float_MathLib L) 0 0))
  /\ PrimFloat.ltb 0 0x1p-50 = true
  /\ PrimFloat.leb 0x1p-50 180 = true.
Proof.
  split; [ | split; vm_compute; reflexivity ].
  intros L. repeat split; vm_compute; reflexivity.
Qed.

End Binary64Score.

Module Binary64Scaling.

Import Binary64.
Local Open Scope float_scope.






End Binary64Scaling.

(** * The argument of [asin] in a composition *)

(** The arguments of the calls of [asin] in an expression. *)
Fixpoint asinArguments {N : Type} (e : MathNode N) : list (MathNode N) :=
  match e with
  | SymbolX => []
  | ConstantNode _ => []
  | OperatorNode _ l r => asinArguments l ++ asinArguments r
  | UnaryMinus u => asinArguments u
  | FunctionNode fn u =>
      (if FunctionName_eqb fn Fasin then [u] else []) ++ asinArguments u
  | ParenthesisNode u => asinArguments u
  end.

Module AsinRuns.

Import Binary64 Runs GeneratorRuns Binary64Grids.
Local Open Scope float_scope.

(** [(3 * (x)) / 1], and [(asin(((3 * (x))) / 1))]. *)
Definition three_x_over_1 : MathNode float :=
  OperatorNode Divide
    (ParenthesisNode
       (OperatorNode Multiply (ConstantNode 3) (ParenthesisNode SymbolX)))
    (ConstantNode 1).

Definition asin_of_3x : MathNode float :=
  ParenthesisNode (FunctionNode Fasin three_x_over_1).

(** The draws that make the generator compose the [asin] primitive with
    [3 * (x)]: two functions, [asin(x / 1)] and [x] first after the sort,
    the first left as it is, the second with the scalar 3, the operation
    [compose], and [f1(f2(x))]. *)
Definition drawsOfAsin : Tape float :=
  [ Random 0.5; Sorted (12 :: 0 :: seq 1 11)%nat;
    Random 0.5; Random 0.5;
    Random 0.25; Random 0.875; Random 0.5;
    Random 0.75; Random 0.25 ].

(** C8 (fails on the code): the primitive [asin(x / intervalLimit)] keeps
    its argument in [[-1, 1]] only while its [x] is the abscissa.  The
    generator also composes it: on [[-1, 1]] it can answer
    [asin((3 * (x)) / 1)], and [getNewFunctions] hands it on; at the
    abscissa 1 of Simpson's rule the argument is 3 and [asin] is called
    there. *)
Theorem composed_asin_leaves_domain :
  asinArguments asin_of_3x = [three_x_over_1]
  /\ In 1 (simpsonAbscissas (fst easyInterval) (snd easyInterval) 200)
  /\ within (-1) 1 3 = false
  /\ forall L : Libm,
       generateRandomFunction (intervalLimitOf easyInterval) drawsOfAsin
       = Some (asin_of_3x, [])
       /\ getNewFunctions 1000 easyInterval (drawsOfAsin ++ drawsOfX)
          = Some ((asin_of_3x, x_), [])
       /\ evaluate three_x_over_1 1 = 3
       /\ evaluate asin_of_3x 1 = libm_fn Fasin 3.
Proof.
  split; [ reflexivity | ].
  split; [ right; left; reflexivity | ].
  split; [ vm_compute; reflexivity | ].
  intros L. repeat split; vm_compute; reflexivity.
Qed.

End AsinRuns.
